(** * documentation_qa: the crawl-and-ingest core

    A shallow embedding of three parts of the repository:

    - [Chunker]  : [DocumentBuilder._split_text] of [crawler/crawler.py];
    - [Fetch]    : [SingleCrawler.crawl_async], [SingleCrawler.crawl_process]
                   and [ParallelCrawler.crawl] of [crawler/crawler.py];
    - [Frontier] : [URLExtractor.extract_doc_urls] and [URLExtractor._worker]
                   of [crawler/url_extractor.py].

    Python integers are unbounded, so they are modelled by [Z]; a Python [str]
    is modelled by its sequence of characters. *)

From Stdlib Require Import ZArith List Ascii String Lia Bool.
From stdpp Require Import gmap strings list.
Import ListNotations.


(** ** Python sequence primitives used by the chunker *)

Module PyStr.
Local Open Scope Z_scope.

(** [len(text)] *)
Definition len (t : list ascii) : Z := Z.of_nat (length t).

(** How Python turns a slice bound [i] into a position of a sequence of
    length [L]: a negative bound counts from the end, and both kinds are
    clamped to [0 .. L]. *)
Definition slice_index (L i : Z) : Z :=
  if i <? 0 then Z.max (i + L) 0 else Z.min i L.

(** [text[a:b]] *)
Definition slice (t : list ascii) (a b : Z) : list ascii :=
  let a' := slice_index (len t) a in
  let b' := slice_index (len t) b in
  firstn (Z.to_nat (b' - a')) (skipn (Z.to_nat a') t).

(** [t.startswith(sub)] *)
Fixpoint starts_with (sub t : list ascii) : bool :=
  match sub, t with
  | [], _ => true
  | _ :: _, [] => false
  | c :: sub', d :: t' => Ascii.eqb c d && starts_with sub' t'
  end.

(** Scan [n] candidate positions [i, i+1, ...] upwards; [t] is the text from
    position [i] on. The answer is the first position where [sub] starts,
    or [-1]. *)
Fixpoint find_scan (sub t : list ascii) (i : Z) (n : nat) {struct n} : Z :=
  match n with
  | O => -1
  | S n' =>
      if starts_with sub t then i
      else match t with
           | [] => -1
           | _ :: t' => find_scan sub t' (i + 1) n'
           end
  end.

(** The same candidates, but the answer is the last position where [sub]
    starts. *)
Fixpoint rfind_scan (sub t : list ascii) (i : Z) (n : nat) {struct n} : Z :=
  match n with
  | O => -1
  | S n' =>
      let later := match t with
                   | [] => -1
                   | _ :: t' => rfind_scan sub t' (i + 1) n'
                   end in
      if later =? -1 then (if starts_with sub t then i else -1) else later
  end.

(** [text.find(sub, a, b)]: the lowest index where [sub] occurs inside
    [text[a:b]], or [-1]. The bounds are read as slice bounds. *)
Definition find (t sub : list ascii) (a b : Z) : Z :=
  let a' := slice_index (len t) a in
  let b' := slice_index (len t) b in
  find_scan sub (skipn (Z.to_nat a') t) a' (Z.to_nat (b' - len sub - a' + 1)).

(** [text.rfind(sub, a, b)]: the highest such index, or [-1]. *)
Definition rfind (t sub : list ascii) (a b : Z) : Z :=
  let a' := slice_index (len t) a in
  let b' := slice_index (len t) b in
  rfind_scan sub (skipn (Z.to_nat a') t) a' (Z.to_nat (b' - len sub - a' + 1)).

End PyStr.

(** ** [DocumentBuilder._split_text] *)

Module Chunker.
Import PyStr.
Local Open Scope Z_scope.

Definition str (s : string) : list ascii := list_ascii_of_string s.

Definition newline : ascii := ascii_of_nat 10.
Definition paragraph_sep : list ascii := [newline; newline].
Definition sentence_sep : list ascii := str ". ".
Definition space_sep : list ascii := str " ".

(** The body of the loop up to [end = min(end, len(text))]: the end position
    of the chunk that starts at [start]. *)
Definition chunk_end (text : list ascii) (chunk_size start : Z) : Z :=
  let e := start + chunk_size in
  let e :=
    if e <? len text then
      let paragraph_break :=
        find text paragraph_sep (e - chunk_size / 2) (e + chunk_size / 2) in
      if negb (paragraph_break =? -1) then paragraph_break + 2
      else
        let sentence_break :=
          find text sentence_sep (e - chunk_size / 4) (e + chunk_size / 4) in
        if negb (sentence_break =? -1) then sentence_break + 2
        else if e <? len text then
          let space := rfind text space_sep (e - chunk_size / 8) e in
          if negb (space =? -1) then space + 1 else e
        else e
    else e in
  Z.min e (len text).

(** [next_start = end - chunk_overlap], forced to [start + 1] when that would
    not advance. *)
Definition next_start (start e chunk_overlap : Z) : Z :=
  let n := e - chunk_overlap in
  if n <=? start then start + 1 else n.

(** The [while start < len(text)] loop. [chunks] is the list built so far
    ([chunks.append]); [None] means the fuel ran out before the loop ended. *)
Fixpoint split_loop (fuel : nat) (text : list ascii)
    (chunk_size chunk_overlap start : Z) (chunks : list (list ascii))
    : option (list (list ascii)) :=
  match fuel with
  | O => None
  | S fuel' =>
      if start <? len text then
        let e := chunk_end text chunk_size start in
        let chunks := chunks ++ [slice text start e] in
        let start := next_start start e chunk_overlap in
        if start >=? len text then Some chunks
        else split_loop fuel' text chunk_size chunk_overlap start chunks
      else Some chunks
  end.

(** [_split_text(text, chunk_size, chunk_overlap)]. The loop is given one
    unit of fuel per character of the text. *)
Definition split_text (text : list ascii) (chunk_size chunk_overlap : Z)
    : option (list (list ascii)) :=
  match text with
  | [] => Some []
  | _ =>
      if len text <=? chunk_size then Some [text]
      else split_loop (length text) text chunk_size chunk_overlap 0 []
  end.

End Chunker.

(** ** The vocabulary of the chunker's properties *)

Module ChunkSpec.
Import PyStr Chunker.
Local Open Scope Z_scope.

(** [sub] occurs in [t] at position [p], wholly inside the text. *)
Definition occurs_at (sub t : list ascii) (p : Z) : Prop :=
  0 <= p /\ p + len sub <= len t /\
  firstn (length sub) (skipn (Z.to_nat p) t) = sub.

(** [p] is the first occurrence of [sub] lying wholly in [lo .. hi). *)
Definition first_in_window (sub t : list ascii) (lo hi p : Z) : Prop :=
  lo <= p /\ p + len sub <= hi /\ occurs_at sub t p /\
  forall q, lo <= q -> q < p -> ~ occurs_at sub t q.

(** [p] is the last occurrence of [sub] lying wholly in [lo .. hi). *)
Definition last_in_window (sub t : list ascii) (lo hi p : Z) : Prop :=
  lo <= p /\ p + len sub <= hi /\ occurs_at sub t p /\
  forall q, p < q -> q + len sub <= hi -> ~ occurs_at sub t q.

(** No occurrence of [sub] lies wholly in [lo .. hi). *)
Definition none_in_window (sub t : list ascii) (lo hi : Z) : Prop :=
  forall q, lo <= q -> q + len sub <= hi -> ~ occurs_at sub t q.

(** The end position the priority order prescribes for the chunk that starts
    at [start], relative to the candidate [start + chunk_size]: a paragraph
    break within [chunk_size / 2] on either side; else a sentence break within
    [chunk_size / 4] on either side; else the last space within the
    [chunk_size / 8] characters before the candidate; the boundary found is
    extended by its separator; else the candidate clamped to the text
    length. *)
Inductive boundary_end (text : list ascii) (chunk_size start : Z) : Z -> Prop :=
| end_paragraph p :
    first_in_window paragraph_sep text
      (start + chunk_size - chunk_size / 2) (start + chunk_size + chunk_size / 2) p ->
    boundary_end text chunk_size start (p + 2)
| end_sentence p :
    none_in_window paragraph_sep text
      (start + chunk_size - chunk_size / 2) (start + chunk_size + chunk_size / 2) ->
    first_in_window sentence_sep text
      (start + chunk_size - chunk_size / 4) (start + chunk_size + chunk_size / 4) p ->
    boundary_end text chunk_size start (p + 2)
| end_space p :
    none_in_window paragraph_sep text
      (start + chunk_size - chunk_size / 2) (start + chunk_size + chunk_size / 2) ->
    none_in_window sentence_sep text
      (start + chunk_size - chunk_size / 4) (start + chunk_size + chunk_size / 4) ->
    last_in_window space_sep text
      (start + chunk_size - chunk_size / 8) (start + chunk_size) p ->
    boundary_end text chunk_size start (p + 1)
| end_raw :
    none_in_window paragraph_sep text
      (start + chunk_size - chunk_size / 2) (start + chunk_size + chunk_size / 2) ->
    none_in_window sentence_sep text
      (start + chunk_size - chunk_size / 4) (start + chunk_size + chunk_size / 4) ->
    none_in_window space_sep text
      (start + chunk_size - chunk_size / 8) (start + chunk_size) ->
    boundary_end text chunk_size start (Z.min (start + chunk_size) (len text)).

(** Reassembly as the coverage property describes it: the first chunk whole,
    every later chunk without its first [overlap] characters. *)
Definition drop_overlap (overlap : Z) (chunk : list ascii) : list ascii :=
  skipn (Z.to_nat overlap) chunk.

Definition reassemble (overlap : Z) (chunks : list (list ascii)) : list ascii :=
  match chunks with
  | [] => []
  | c :: rest => c ++ concat (map (drop_overlap overlap) rest)
  end.

(** The loop is at [start] and the text is reassembled up to [c]: either the
    previous chunk ended at [c = start + overlap], or the text is already
    complete and the remaining chunks fit inside the overlap. *)
Definition covered (text : list ascii) (chunk_size overlap start c : Z) : Prop :=
  (c = start + overlap /\ c <= len text) \/
  (c = len text /\ len text <= start + overlap /\ len text <= start + chunk_size).

End ChunkSpec.

(** ** [SingleCrawler] and [ParallelCrawler] *)

Module Fetch.
Local Open Scope Z_scope.

(** The object [crawler.arun] hands back, as far as the code reads it: each
    of the three attributes is present or not ([hasattr]). *)
Record arun_result := {
  markdown_attr : option string;
  extracted_content_attr : option string;
  cleaned_html_attr : option string;
}.

(** The dictionary a worker returns: the five keys of a successful crawl,
    or the three keys of a failed one. *)
Inductive fetch_result :=
| Fetched (url markdown cleaned_html extracted_content : string)
| Failed (url error : string).

(** [r["url"]] *)
Definition result_url (r : fetch_result) : string :=
  match r with
  | Fetched url _ _ _ => url
  | Failed url _ => url
  end.

(** [r["success"]] *)
Definition result_success (r : fetch_result) : bool :=
  match r with
  | Fetched _ _ _ _ => true
  | Failed _ _ => false
  end.

(** [r.get("error")] *)
Definition result_error (r : fetch_result) : option string :=
  match r with
  | Fetched _ _ _ _ => None
  | Failed _ e => Some e
  end.

(** What [ParallelCrawler.crawl] does: it returns, with or without having
    created a pool of [n] processes, or the pool constructor raises. *)
Inductive crawl_outcome :=
| Returned (pool : option Z) (results : list fetch_result)
| Raised (error : string).

Section Crawler.

(** The browser session: [inl r] when [crawler.arun(url=url)] returns [r],
    [inr msg] when an [Exception] with [str(e) = msg] is raised inside the
    [try] block. *)
Variable arun : string -> arun_result + string.

(** [multiprocessing.cpu_count()] *)
Variable cpu_count : Z.

(** [str(result.x) if hasattr(result, "x") else ""] *)
Definition attr_text (a : option string) : string :=
  match a with
  | Some s => s
  | None => ""%string
  end.

(** [SingleCrawler.crawl_async] *)
Definition crawl_async (url : string) : fetch_result :=
  match arun url with
  | inl result =>
      Fetched url (attr_text (markdown_attr result))
        (attr_text (cleaned_html_attr result))
        (attr_text (extracted_content_attr result))
  | inr e => Failed url e
  end.

(** [SingleCrawler.crawl_process]: [asyncio.run] of [crawl_async], between
    two log lines. *)
Definition crawl_process (url : string) : fetch_result := crawl_async url.

(** The [processes] argument the code passes to [multiprocessing.Pool]. *)
Definition pool_processes (max_processes : option Z) (urls : list string) : Z :=
  let max_processes :=
    match max_processes with
    | None => cpu_count
    | Some n => n
    end in
  Z.min max_processes (Z.of_nat (length urls)).

(** [ParallelCrawler(max_processes).crawl(urls)]. [Pool(processes=n)] raises
    [ValueError] when [n < 1]; [pool.map] returns the results of
    [crawl_process] in the order of [urls]. *)
Definition crawl (max_processes : option Z) (urls : list string) : crawl_outcome :=
  match urls with
  | [] => Returned None []
  | _ =>
      let n := pool_processes max_processes urls in
      if n <? 1 then Raised "Number of processes must be at least 1"
      else Returned (Some n) (map crawl_process urls)
  end.

(** The worker count as the specification words it. *)
Definition spec_worker_count (max_processes : option Z) (urls : list string) : Z :=
  let requested :=
    match max_processes with
    | None => cpu_count
    | Some n => n
    end in
  Z.min requested (Z.min cpu_count (Z.of_nat (length urls))).

(** A worker count the pool accepts: none given, or at least one. *)
Definition valid_max_processes (max_processes : option Z) : Prop :=
  match max_processes with
  | None => True
  | Some n => 1 <= n
  end.

(** [sum(1 for r in results if not r["success"])] *)
Definition failure_count (results : list fetch_result) : nat :=
  length (List.filter (fun r => negb (result_success r)) results).

(** The number of URLs of the list on which the session raises. *)
Definition raising_count (urls : list string) : nat :=
  length (List.filter (fun u => match arun u with inl _ => false | inr _ => true end) urls).

End Crawler.
End Fetch.

(** ** [URLExtractor]

    The workers are coroutines of one event loop: a worker runs alone from
    one suspension to the next. It can be suspended in [queue.get()], while
    the queue is empty, and in [_fetch_links(url)], while the page loads.
    [queue.put] on the unbounded [asyncio.Queue()] never suspends, so the
    whole [for link in links] loop runs in one piece. The model has one
    transition for each of the two resumptions. *)

Module Frontier.
Local Open Scope Z_scope.

(** [c.lower()] on the ASCII letters. *)
Definition lower_char (c : ascii) : ascii :=
  let n := nat_of_ascii c in
  if ((65 <=? n) && (n <=? 90))%nat then ascii_of_nat (n + 32) else c.

(** [s.lower()] *)
Fixpoint lower (s : string) : string :=
  match s with
  | EmptyString => EmptyString
  | String c s' => String (lower_char c) (lower s')
  end.

(** [sub in s] *)
Fixpoint contains (sub s : string) : bool :=
  String.prefix sub s ||
  match s with
  | EmptyString => false
  | String _ s' => contains sub s'
  end.

(** ['doc' in link.lower()] *)
Definition is_doc (link : string) : bool := contains "doc" (lower link).

(** The fields of the extractor, and for every worker the job whose
    [_fetch_links] it awaits ([None]: the worker waits in [queue.get()]). *)
Record state := mk_state {
  doc_urls : gset string;
  visited_urls : gset string;
  queued_urls : gset string;
  queue : list (string * Z);
  workers : list (option (string * Z));
}.

(** What an observer of the extractor records. *)
Inductive event :=
| EvPut (url : string) (depth : Z)
    (** [queue.put((url, depth))] together with [queued_urls.add(url)] *)
| EvGet (url : string) (depth : Z)
    (** [queue.get()] handed [(url, depth)] to a worker *)
| EvLink (page : string) (depth : Z) (link : string).
    (** the loop over the links of [page], crawled at [depth], reached the
        'doc' test with the normalised [link] *)

(** What a scheduler decides: which worker's [queue.get()] returns, or which
    worker's [_fetch_links] returns, and with which links. *)
Inductive action :=
| Get (i : nat)
| Resume (i : nat) (links : list string).

Section Crawl.

(** [self.max_depth] *)
Variable max_depth : Z.

(** [urlparse(link).netloc]; [None] when [urlparse] raises. *)
Variable urlparse_netloc : string -> option string.

(** [urljoin(url, link)]; [None] when it raises. *)
Variable urljoin : string -> string -> option string.

(** The link after [if not parsed.netloc: link = urljoin(url, link)]. *)
Definition normalize (url link : string) : option string :=
  match urlparse_netloc link with
  | None => None
  | Some netloc => if String.eqb netloc "" then urljoin url link else Some link
  end.

(** One round of [for link in links]; [None] when the round raises, which it
    can only do before it changes a field. *)
Definition process_link (url : string) (depth : Z) (link : string) (st : state)
    : option (state * list event) :=
  if String.eqb link "" then Some (st, [])
  else
    match normalize url link with
    | None => None
    | Some link =>
        let docs :=
          if is_doc link then {[link]} ∪ doc_urls st else doc_urls st in
        if (depth <? max_depth)
           && negb (bool_decide (link ∈ visited_urls st))
           && negb (bool_decide (link ∈ queued_urls st))
        then Some (mk_state docs (visited_urls st) ({[link]} ∪ queued_urls st)
                     (queue st ++ [(link, depth + 1)]) (workers st),
                   [EvLink url depth link; EvPut link (depth + 1)])
        else Some (mk_state docs (visited_urls st) (queued_urls st)
                     (queue st) (workers st),
                   [EvLink url depth link])
    end.

(** The loop [for link in links] inside [try ... except Exception]: a round
    that raises ends the loop, and what earlier rounds did stays. *)
Fixpoint process_links (url : string) (depth : Z) (links : list string)
    (st : state) : state * list event :=
  match links with
  | [] => (st, [])
  | link :: rest =>
      match process_link url depth link st with
      | None => (st, [])
      | Some (st', evs) =>
          let (st'', evs') := process_links url depth rest st' in
          (st'', evs ++ evs')
      end
  end.

(** Worker [i] resumes from [queue.get()] with the head of the queue, and
    runs up to [task_done(); continue] or up to [await _fetch_links(url)]. *)
Definition worker_get (i : nat) (st : state) : option (state * list event) :=
  match workers st !! i, queue st with
  | Some None, (url, depth) :: q =>
      if bool_decide (url ∈ visited_urls st)
      then Some (mk_state (doc_urls st) (visited_urls st) (queued_urls st) q
                   (workers st),
                 [EvGet url depth])
      else Some (mk_state (doc_urls st) ({[url]} ∪ visited_urls st)
                   (queued_urls st) q (<[i := Some (url, depth)]> (workers st)),
                 [EvGet url depth])
  | _, _ => None
  end.

(** Worker [i] resumes from [_fetch_links(url)] with [links], and runs up to
    [task_done()] and the next [queue.get()]. *)
Definition worker_resume (i : nat) (links : list string) (st : state)
    : option (state * list event) :=
  match workers st !! i with
  | Some (Some (url, depth)) =>
      Some (process_links url depth links
              (mk_state (doc_urls st) (visited_urls st) (queued_urls st)
                 (queue st) (<[i := None]> (workers st))))
  | _ => None
  end.

Definition perform (a : action) (st : state) : option (state * list event) :=
  match a with
  | Get i => worker_get i st
  | Resume i links => worker_resume i links st
  end.

(** [extract_doc_urls] up to the creation of the workers: the three sets are
    reset and the seed is queued at depth 1. *)
Definition init (base_url : string) (concurrency : nat) : state :=
  mk_state ∅ ∅ {[base_url]} [(base_url, 1)] (replicate concurrency None).

(** The states an extraction can be in, with what was observed so far. *)
Inductive run (base_url : string) (concurrency : nat)
    : list event -> state -> Prop :=
| run_init :
    run base_url concurrency [EvPut base_url 1] (init base_url concurrency)
| run_step tr st a st' evs :
    run base_url concurrency tr st ->
    perform a st = Some (st', evs) ->
    run base_url concurrency (tr ++ evs) st'.

(** The extraction under a given schedule. *)
Fixpoint replay (acts : list action) (tr : list event) (st : state)
    : option (list event * state) :=
  match acts with
  | [] => Some (tr, st)
  | a :: acts' =>
      match perform a st with
      | None => None
      | Some (st', evs) => replay acts' (tr ++ evs) st'
      end
  end.

(** [queue.join()] returns: every job that was put has been marked done, so
    the queue is empty and no worker holds a job. [extract_doc_urls] then
    returns [list(self.doc_urls)]. *)
Definition finished (st : state) : Prop :=
  queue st = [] /\ Forall (fun w => w = None) (workers st).

(** The URLs of the [EvPut] events, in order. *)
Definition puts (tr : list event) : list string :=
  omap (fun e => match e with EvPut u _ => Some u | _ => None end) tr.

(** Some page had the link [u]. *)
Definition saw_link (tr : list event) (u : string) : Prop :=
  exists page d, EvLink page d u ∈ tr.

(** Some page crawled at a depth that is not below [max_depth] had the
    link [u]. *)
Definition saw_link_at_limit (tr : list event) (u : string) : Prop :=
  exists page d, EvLink page d u ∈ tr /\ max_depth <= d.

(** The greatest depth a job can have. *)
Definition depth_cap : Z := Z.max 1 max_depth.

(** What holds of every state of an extraction. *)
Record inv (tr : list event) (st : state) : Prop := mk_inv {
  inv_visited : visited_urls st ⊆ queued_urls st;
  inv_queue : forall u d,
    (u, d) ∈ queue st -> u ∈ queued_urls st /\ 1 <= d <= depth_cap;
  inv_workers : forall u d,
    Some (u, d) ∈ workers st -> u ∈ visited_urls st /\ 1 <= d <= depth_cap;
  inv_puts_nodup : NoDup (puts tr);
  inv_puts : forall u, u ∈ puts tr <-> u ∈ queued_urls st;
  inv_docs : forall u, u ∈ doc_urls st <-> is_doc u = true /\ saw_link tr u;
  inv_gets : forall u d, EvGet u d ∈ tr -> 1 <= d <= depth_cap;
  inv_docs_queued : forall u,
    u ∈ doc_urls st -> u ∈ queued_urls st \/ saw_link_at_limit tr u;
}.

End Crawl.
End Frontier.

(** ** Inputs of the worked cases *)

Module Samples.
Import PyStr Chunker Fetch Frontier.
Local Open Scope Z_scope.

(** Twelve letters without a break of any kind. *)
Definition twelve_letters : list ascii := str "abcdefghijkl".

(** A sentence break and spaces, no paragraph break. *)
Definition prose : list ascii :=
  str "hello world. this is a test of the chunker".

(** A paragraph break two characters before the text end. *)
Definition break_near_end : list ascii :=
  str "abcdefghijklmn" ++ paragraph_sep ++ str "op".

(** A page whose markdown is [md]. *)
Definition page (md : string) : arun_result :=
  {| markdown_attr := Some md;
     extracted_content_attr := None;
     cleaned_html_attr := Some "<p></p>"%string |}.

(** A session that times out on the second of [three_urls]. *)
Definition second_raises (url : string) : arun_result + string :=
  if String.eqb url "https://x.com/docs/b" then inr "Timeout 30000ms exceeded"%string
  else inl (page "# Title").

Definition three_urls : list string :=
  ["https://x.com/docs/a"; "https://x.com/docs/b"; "https://x.com/docs/c"]%string.

Definition five_urls : list string :=
  ["https://x.com/docs/a"; "https://x.com/docs/b"; "https://x.com/docs/c";
   "https://x.com/docs/d"; "https://x.com/docs/e"]%string.

(** Every link of the sample sites is absolute. *)
Definition absolute_netloc (link : string) : option string := Some "x.com"%string.
Definition join_unused (url link : string) : option string := Some link.

Definition home : string := "https://x.com".
Definition docs_a : string := "https://x.com/docs/a".
Definition docs_b : string := "https://x.com/Docs/b".
Definition about : string := "https://x.com/about".

(** One worker crawls a seed that has no links. *)
Definition lone_page : list action := [Get 0%nat; Resume 0%nat []].

(** One worker crawls a seed that links to one documentation page. *)
Definition one_link : list action := [Get 0%nat; Resume 0%nat [docs_a]].

(** Two workers on a site with a cycle and with a link repeated on a page:
    the seed links to [docs_a] twice, to [about] and to itself; [docs_a]
    links back to the seed, to itself and to [docs_b]. *)
Definition cyclic_site : list action :=
  [Get 0%nat; Resume 0%nat [docs_a; about; docs_a; home];
   Get 1%nat; Get 0%nat;
   Resume 1%nat [home; docs_a; docs_b]; Resume 0%nat [];
   Get 0%nat; Resume 0%nat [docs_a]].

(** What the extraction of depth 3 from [home] observes and where it ends
    under the schedule [cyclic_site]. *)
Definition cyclic_trace : list event :=
  [EvPut home 1; EvGet home 1;
   EvLink home 1 docs_a; EvPut docs_a 2;
   EvLink home 1 about; EvPut about 2;
   EvLink home 1 docs_a; EvLink home 1 home;
   EvGet docs_a 2; EvGet about 2;
   EvLink docs_a 2 home; EvLink docs_a 2 docs_a;
   EvLink docs_a 2 docs_b; EvPut docs_b 3;
   EvGet docs_b 3; EvLink docs_b 3 docs_a].

Definition cyclic_final : state :=
  mk_state {[docs_a; docs_b]} {[home; docs_a; about; docs_b]}
    {[home; docs_a; about; docs_b]} [] [None; None].

(** The extraction of depth 3 from [home] after the first four steps of
    [cyclic_site]: both workers wait for a page. *)
Definition two_busy_trace : list event :=
  [EvPut home 1; EvGet home 1;
   EvLink home 1 docs_a; EvPut docs_a 2;
   EvLink home 1 about; EvPut about 2;
   EvLink home 1 docs_a; EvLink home 1 home;
   EvGet docs_a 2; EvGet about 2].

Definition two_busy_state : state :=
  mk_state {[docs_a]} {[home; docs_a; about]} {[home; docs_a; about]} []
    [Some (about, 2%Z); Some (docs_a, 2%Z)].

(** The extraction of depth 1 from [home] under [one_link], at its end. *)
Definition one_link_trace : list event :=
  [EvPut home 1; EvGet home 1; EvLink home 1 docs_a].

Definition one_link_final : state :=
  mk_state {[docs_a]} {[home]} {[home]} [] [None].

(** Three fetch results: a page, a failure, and a page whose markdown is
    two spaces and a newline. *)
Definition mixed_results : list fetch_result :=
  [Fetched docs_a "Install the tool. Then run it." "" "";
   Failed docs_b "Timeout 30000ms exceeded";
   Fetched about (String " " (String " " (String (ascii_of_nat 10) EmptyString))) "" ""].

End Samples.

(** ** [DocumentBuilder.create_combined_document] and
       [DocumentBuilder.create_chunks] *)

Module Builder.
Import PyStr Chunker Fetch.
Local Open Scope Z_scope.

Definition nl : string := String newline EmptyString.

(** ["# Content from "] *)
Definition section_prefix : string := "# Content from ".

(** ["\n\n---\n\n"] *)
Definition section_separator : string := (nl ++ nl ++ "---" ++ nl ++ nl)%string.

(** [result.get("success") and result.get("markdown")]: the result is a
    success and its markdown is not the empty string. *)
Definition has_markdown (result : fetch_result) : bool :=
  match result with
  | Fetched _ markdown _ _ => negb (String.eqb markdown "")
  | Failed _ _ => false
  end.

(** [result.get("markdown", "")] *)
Definition markdown_of (result : fetch_result) : string :=
  match result with
  | Fetched _ markdown _ _ => markdown
  | Failed _ _ => ""%string
  end.

(** [f"# Content from {result['url']}\n\n{markdown}"] *)
Definition section_of (result : fetch_result) : string :=
  (section_prefix ++ result_url result ++ nl ++ nl ++ markdown_of result)%string.

(** The [for result in results] loop of [create_combined_document]:
    [content_sections] and [total_content_length] as they stand after it. *)
Fixpoint collect_sections (results : list fetch_result)
    (content_sections : list string) (total_content_length : Z)
    : list string * Z :=
  match results with
  | [] => (content_sections, total_content_length)
  | result :: rest =>
      if has_markdown result then
        collect_sections rest
          (content_sections ++ [section_of result])
          (total_content_length + Z.of_nat (String.length (markdown_of result)))
      else collect_sections rest content_sections total_content_length
  end.

(** [create_combined_document(results, output_file)]: the string returned,
    and whether the file was written. [writable] tells whether
    [open(output_file, "w")] and the write go through; when they raise, the
    error is logged and the document is returned all the same. *)
Definition create_combined_document (writable : string -> bool)
    (results : list fetch_result) (output_file : string) : string * bool :=
  let '(content_sections, _) := collect_sections results [] 0 in
  let combined_content := String.concat section_separator content_sections in
  (combined_content, writable output_file).

(** The figure of the log line: [total_content_length]. *)
Definition combined_markdown_length (results : list fetch_result) : Z :=
  snd (collect_sections results [] 0).

(** One record of the chunk list. *)
Record chunk := mk_chunk {
  chunk_content : list ascii;
  chunk_url : string;
  chunk_length : Z;
}.

(** [c.isspace()] for a character below 256. *)
Definition is_space (c : ascii) : bool :=
  let n := nat_of_ascii c in
  ((9 <=? n) && (n <=? 13) || (28 <=? n) && (n <=? 32)
   || (n =? 133) || (n =? 160))%nat.

(** [not content.strip()]: nothing is left once the white space is
    stripped from both ends. *)
Definition blank (content : list ascii) : bool := forallb is_space content.

(** [{"content": chunk_content, "url": url, "chunk_length": len(chunk_content)}] *)
Definition chunk_of (url : string) (chunk_content : list ascii) : chunk :=
  mk_chunk chunk_content url (len chunk_content).

(** The [for result in results] loop of [create_chunks]; [None] when a call
    of [_split_text] runs out of fuel. *)
Fixpoint chunk_results (results : list fetch_result)
    (chunk_size chunk_overlap : Z) (chunks : list chunk)
    : option (list chunk) :=
  match results with
  | [] => Some chunks
  | result :: rest =>
      if negb (has_markdown result) then
        chunk_results rest chunk_size chunk_overlap chunks
      else
        let url := result_url result in
        let content := str (markdown_of result) in
        if blank content then
          chunk_results rest chunk_size chunk_overlap chunks
        else
          match split_text content chunk_size chunk_overlap with
          | None => None
          | Some content_chunks =>
              chunk_results rest chunk_size chunk_overlap
                (chunks ++ map (chunk_of url) content_chunks)
          end
  end.

(** [create_chunks(results, chunk_size, chunk_overlap, output_file)]: the
    chunk list returned, and whether the JSON file was written (a failed
    write is logged and changes nothing else). *)
Definition create_chunks (writable : string -> bool)
    (results : list fetch_result) (chunk_size chunk_overlap : Z)
    (output_file : string) : option (list chunk * bool) :=
  match chunk_results results chunk_size chunk_overlap [] with
  | None => None
  | Some chunks => Some (chunks, writable output_file)
  end.

(** The defaults of [create_chunks]. *)
Definition default_chunk_size : Z := 1000.
Definition default_chunk_overlap : Z := 200.

End Builder.

(** ** [URLExtractor._fetch_links], [clean_url] and
       [KnowledgeBaseGenerator.generate] *)

Module Links.

(** The filter of the page script:
    [href => href && !href.startsWith('javascript:')]. *)
Definition keeps_href (href : string) : bool :=
  negb (String.eqb href "") && negb (String.prefix "javascript:" href).

(** [_fetch_links(url)]: [Some hrefs] when the page loads, [hrefs] being
    the [href] of its [a] elements in document order; [None] when anything
    inside the [try] block raises, which yields the empty list. *)
Definition fetch_links (page : option (list string)) : list string :=
  match page with
  | Some hrefs => List.filter keeps_href hrefs
  | None => []
  end.

End Links.

Module Pipeline.
Import PyStr Chunker Fetch Builder.
Local Open Scope Z_scope.

(** [s.replace(old, new)] for one-character [old] and [new]. *)
Fixpoint replace_char (old new : ascii) (s : string) : string :=
  match s with
  | EmptyString => EmptyString
  | String c s' =>
      String (if Ascii.eqb c old then new else c) (replace_char old new s')
  end.

(** [s.endswith(c)] for a one-character [c]. *)
Fixpoint ends_with_char (c : ascii) (s : string) : bool :=
  match s with
  | EmptyString => false
  | String d EmptyString => Ascii.eqb d c
  | String _ s' => ends_with_char c s'
  end.

(** [os.path.join(a, b)] on a POSIX host. *)
Definition path_join (a b : string) : string :=
  if String.prefix "/" b then b
  else if String.eqb a "" || ends_with_char "/" a then (a ++ b)%string
  else (a ++ "/" ++ b)%string.

Section Generator.

Variable arun : string -> arun_result + string.
Variable cpu_count : Z.

(** [urlparse(url).netloc]; [None] when [urlparse] raises. *)
Variable urlparse_netloc : string -> option string.

Variable writable : string -> bool.

(** [clean_url(url)]; [None] when [urlparse] raises. *)
Definition clean_url (url : string) : option string :=
  match urlparse_netloc url with
  | Some netloc => Some (replace_char "." "_" netloc)
  | None => None
  end.

(** What a written file holds. *)
Inductive file_content :=
| Text (content : string)
| Json (records : list chunk).

(** What [generate] leaves behind when it returns. *)
Record generated := mk_generated {
  knowledge_base_path : string;
  combined_document : string;
  chunks : list chunk;
  files : list (string * file_content);
}.

Inductive generate_outcome :=
| Generated (g : generated)
| PoolError (error : string)
    (** the [ValueError] of [multiprocessing.Pool] leaves [generate] *)
| UrlError
    (** the [ValueError] of [urlparse] leaves [generate] *)
| OutOfFuel.
    (** a chunking loop of the model ran out of fuel *)

(** [KnowledgeBaseGenerator(output_dir, max_depth, concurrency).generate(doc_url)]
    from step 2 on: [doc_urls] is the list [extract_doc_urls(doc_url)]
    returned. *)
Definition generate (output_dir : string) (concurrency : Z)
    (doc_url : string) (doc_urls : list string) : generate_outcome :=
  match crawl arun cpu_count (Some concurrency) doc_urls with
  | Raised e => PoolError e
  | Returned _ results =>
      match clean_url doc_url with
      | None => UrlError
      | Some doc_name =>
          let knowledge_base_path :=
            path_join output_dir (doc_name ++ "_docs.txt") in
          let chunks_file_path :=
            path_join output_dir (doc_name ++ "_chunks.json") in
          let '(combined, combined_written) :=
            create_combined_document writable results knowledge_base_path in
          match create_chunks writable results default_chunk_size
                  default_chunk_overlap chunks_file_path with
          | None => OutOfFuel
          | Some (chunks, chunks_written) =>
              Generated
                (mk_generated knowledge_base_path combined chunks
                   ((if combined_written
                     then [(knowledge_base_path, Text combined)] else []) ++
                    (if chunks_written
                     then [(chunks_file_path, Json chunks)] else [])))
          end
      end
  end.

End Generator.
End Pipeline.

(** ** Vocabulary of the further properties *)

Module Spans.
Import PyStr Chunker.
Local Open Scope Z_scope.

(** The chunk between two positions. *)
Definition span_chunk (text : list ascii) (span : Z * Z) : list ascii :=
  slice text (fst span) (snd span).

(** The rounds of the [while] loop from [start] on, each as the pair of its
    start and its end; [split_loop] without the text. *)
Fixpoint loop_spans (fuel : nat) (text : list ascii)
    (chunk_size chunk_overlap start : Z) : option (list (Z * Z)) :=
  match fuel with
  | O => None
  | S fuel' =>
      if start <? len text then
        let e := chunk_end text chunk_size start in
        let start' := next_start start e chunk_overlap in
        if start' >=? len text then Some [(start, e)]
        else option_map (cons (start, e))
               (loop_spans fuel' text chunk_size chunk_overlap start')
      else Some []
  end.

(** The positions [_split_text] cuts the text at. *)
Definition text_spans (text : list ascii) (chunk_size chunk_overlap : Z)
    : option (list (Z * Z)) :=
  match text with
  | [] => Some []
  | _ =>
      if len text <=? chunk_size then Some [(0, len text)]
      else loop_spans (length text) text chunk_size chunk_overlap 0
  end.

(** A span that is a non-empty piece of the text, no longer than one and a
    half chunk sizes. *)
Definition well_cut (text : list ascii) (chunk_size : Z) (span : Z * Z) : Prop :=
  0 <= fst span /\ fst span < snd span /\ snd span <= len text /\
  snd span - fst span <= chunk_size + chunk_size / 2.

(** The spans start further and further right. *)
Fixpoint starts_increase (spans : list (Z * Z)) : Prop :=
  match spans with
  | a :: (b :: _) as rest => fst a < fst b /\ starts_increase rest
  | _ => True
  end.



End Spans.

Module BuilderTerms.
Import PyStr Chunker Fetch Builder.
Local Open Scope Z_scope.

(** A page [create_chunks] cuts: fetched, with markdown that is more than
    white space. *)
Definition eligible (result : fetch_result) : bool :=
  has_markdown result && negb (blank (str (markdown_of result))).

(** The chunk records of one page. *)
Definition page_chunks (chunk_size chunk_overlap : Z) (result : fetch_result)
    : list chunk :=
  if eligible result then
    match split_text (str (markdown_of result)) chunk_size chunk_overlap with
    | Some content_chunks => map (chunk_of (result_url result)) content_chunks
    | None => []
    end
  else [].

(** The document [create_combined_document] returns. *)
Definition document (results : list fetch_result) : string :=
  fst (create_combined_document (fun _ => true) results "").

(** [section] is a part of [doc]. *)
Definition part_of (section doc : string) : Prop :=
  exists before after, doc = (before ++ section ++ after)%string.

(** The URLs of the list whose fetch does not raise. *)
Definition fetched (arun : string -> arun_result + string)
    (urls : list string) : list string :=
  List.filter (fun u => match arun u with inl _ => true | inr _ => false end) urls.

End BuilderTerms.

Module FrontierTerms.
Import Frontier.

(** The URLs of the [EvGet] events, in order. *)
Definition gets (tr : list event) : list string :=
  omap (fun e => match e with EvGet u _ => Some u | _ => None end) tr.

(** The URLs of the jobs the workers hold. *)
Definition busy_urls (ws : list (option (string * Z))) : list string :=
  omap (fun w => match w with Some (u, _) => Some u | None => None end) ws.

(** The URLs of the jobs in the queue. *)
Definition queue_urls (q : list (string * Z)) : list string := map fst q.

(** What the link loop changes: it appends to the queue the links it puts,
    one level down, adds them to the queued set, and may add documentation
    URLs; it takes no job and leaves the visited set and the workers alone. *)
Definition loop_effect (max_depth depth : Z) (st st' : state) (evs : list event) : Prop :=
  visited_urls st' = visited_urls st /\
  workers st' = workers st /\
  gets evs = [] /\
  queue st' = queue st ++ map (fun u => (u, (depth + 1)%Z)) (puts evs) /\
  queued_urls st' = queued_urls st ∪ list_to_set (puts evs) /\
  doc_urls st ⊆ doc_urls st' /\
  (puts evs <> [] -> (depth < max_depth)%Z).

(** What holds of every state of an extraction, besides [inv]. *)
Record accounts (max_depth : Z) (base_url : string) (concurrency : nat)
    (tr : list event) (st : state) : Prop := mk_accounts {
  acc_pool : length (workers st) = concurrency;
  acc_busy : NoDup (busy_urls (workers st));
  acc_waiting : forall u,
    u ∈ queued_urls st -> u ∈ visited_urls st \/ u ∈ queue_urls (queue st);
  acc_jobs : (length (gets tr) + length (queue st) = length (puts tr))%nat;
  acc_visited : forall u, u ∈ visited_urls st <-> u ∈ gets tr;
  acc_shallow : (max_depth <= 1)%Z ->
    queued_urls st = {[base_url]} /\ puts tr = [base_url];
}.

End FrontierTerms.

(** ** Facts about the sequence primitives *)

Module PyStrFacts.
Import PyStr ChunkSpec.
Local Open Scope Z_scope.

Lemma starts_with_firstn sub t :
  starts_with sub t = true <-> firstn (length sub) t = sub.
Proof.
  revert t. induction sub as [|c sub IH]; intros [|d t]; simpl; try easy.
  rewrite andb_true_iff, Ascii.eqb_eq, IH. split.
  - intros [-> ->]. reflexivity.
  - intros H. injection H as -> H. auto.
Qed.

Lemma starts_with_length sub t :
  starts_with sub t = true -> (length sub <= length t)%nat.
Proof.
  intros H. apply starts_with_firstn in H.
  rewrite <- H at 1. rewrite length_firstn. lia.
Qed.

Lemma slice_index_nonneg L i : 0 <= L -> 0 <= i -> slice_index L i = Z.min i L.
Proof. intros HL Hi. unfold slice_index. destruct (Z.ltb_spec i 0); lia. Qed.

Lemma slice_index_range L i : 0 <= L -> 0 <= slice_index L i <= L.
Proof. intros HL. unfold slice_index. destruct (Z.ltb_spec i 0); lia. Qed.

Lemma len_nonneg t : 0 <= len t.
Proof. unfold len. lia. Qed.

Lemma slice_inside t a b :
  0 <= a -> a <= b -> b <= len t ->
  slice t a b = firstn (Z.to_nat (b - a)) (skipn (Z.to_nat a) t).
Proof.
  intros Ha Hab Hb. unfold slice.
  rewrite !slice_index_nonneg by (pose proof (len_nonneg t); lia).
  rewrite !Z.min_l by lia. reflexivity.
Qed.

Lemma slice_length t a b :
  0 <= a -> a <= b -> b <= len t -> len (slice t a b) = b - a.
Proof.
  intros Ha Hab Hb. rewrite slice_inside by assumption.
  unfold len in *. rewrite length_firstn, length_skipn. lia.
Qed.

(** What [find_scan] answers: either no candidate matches, or the answer is
    the first matching candidate. *)
Lemma find_scan_spec n : forall sub t i,
  (find_scan sub t i n = -1 /\
   forall k, (k < n)%nat -> starts_with sub (skipn k t) = false)
  \/
  (exists k, (k < n)%nat /\ find_scan sub t i n = i + Z.of_nat k /\
             starts_with sub (skipn k t) = true /\
             forall j, (j < k)%nat -> starts_with sub (skipn j t) = false).
Proof.
  induction n as [|n IH]; intros sub t i; simpl.
  - left. split; [reflexivity | intros k Hk; lia].
  - destruct (starts_with sub t) eqn:Hs.
    + right. exists 0%nat. repeat split; [lia | lia | exact Hs | intros j Hj; lia].
    + destruct t as [|d t].
      * left. split; [reflexivity|]. intros k _. rewrite skipn_nil. exact Hs.
      * destruct (IH sub t (i + 1)) as [[Hr Hnone] | (k & Hk & Hr & Hhit & Hfirst)].
        -- left. split; [exact Hr|]. intros [|k] Hk; [exact Hs|].
           simpl. apply Hnone. lia.
        -- right. exists (S k). repeat split; [lia | lia | exact Hhit |].
           intros [|j] Hj; [exact Hs|]. simpl. apply Hfirst. lia.
Qed.

(** What [rfind_scan] answers for a non-empty [sub]: either no candidate
    matches, or the answer is the last matching candidate. *)
Lemma rfind_scan_spec n : forall sub t i, sub <> [] -> 0 <= i ->
  (rfind_scan sub t i n = -1 /\
   forall k, (k < n)%nat -> starts_with sub (skipn k t) = false)
  \/
  (exists k, (k < n)%nat /\ rfind_scan sub t i n = i + Z.of_nat k /\
             starts_with sub (skipn k t) = true /\
             forall j, (k < j < n)%nat -> starts_with sub (skipn j t) = false).
Proof.
  induction n as [|n IH]; intros sub t i Hsub Hi; simpl.
  - left. split; [reflexivity | intros k Hk; lia].
  - destruct t as [|d t].
    + assert (Hs : starts_with sub [] = false) by (destruct sub; [easy | reflexivity]).
      simpl. rewrite Hs. left. split; [reflexivity|].
      intros k _. rewrite skipn_nil. exact Hs.
    + destruct (IH sub t (i + 1) Hsub ltac:(lia))
        as [[Hr Hnone] | (k & Hk & Hr & Hhit & Hlast)].
      * rewrite Hr. simpl. destruct (starts_with sub (d :: t)) eqn:Hs.
        -- right. exists 0%nat. repeat split; [lia | lia | exact Hs |].
           intros [|j] Hj; [lia|]. simpl. apply Hnone. lia.
        -- left. split; [reflexivity|]. intros [|k] Hk; [exact Hs|].
           simpl. apply Hnone. lia.
      * rewrite Hr. destruct (Z.eqb_spec (i + 1 + Z.of_nat k) (-1)) as [E|_]; [lia|].
        right. exists (S k). repeat split; [lia | lia | exact Hhit |].
        intros [|j] Hj; [lia|]. simpl. apply Hlast. lia.
Qed.

Lemma len_pos_of_nonempty (sub : list ascii) : sub <> [] -> 1 <= len sub.
Proof. destruct sub; [easy|]. intros _. unfold len. simpl. lia. Qed.

(** A candidate of a scan that starts at [a'] is a position of the text. *)
Lemma starts_with_occurs sub t a' k :
  0 <= a' -> sub <> [] ->
  starts_with sub (skipn k (skipn (Z.to_nat a') t)) = true ->
  occurs_at sub t (a' + Z.of_nat k).
Proof.
  intros Ha Hsub Hs. rewrite skipn_skipn in Hs.
  replace (k + Z.to_nat a')%nat with (Z.to_nat (a' + Z.of_nat k)) in Hs by lia.
  pose proof (starts_with_length _ _ Hs) as Hl.
  pose proof (len_pos_of_nonempty _ Hsub) as Hp.
  rewrite length_skipn in Hl. unfold occurs_at, len in *.
  repeat split; [lia | lia |]. apply starts_with_firstn. exact Hs.
Qed.

Lemma occurs_starts_with sub t a' q :
  0 <= a' -> a' <= q -> occurs_at sub t q ->
  starts_with sub (skipn (Z.to_nat (q - a')) (skipn (Z.to_nat a') t)) = true.
Proof.
  intros Ha Hq (H0 & _ & Hf). rewrite skipn_skipn.
  replace (Z.to_nat (q - a') + Z.to_nat a')%nat with (Z.to_nat q) by lia.
  apply starts_with_firstn. exact Hf.
Qed.

(** [text.find(sub, a, b)] with non-negative bounds: [-1] when [sub] does not
    occur wholly between [a] and [b], and otherwise the first such
    occurrence. *)
Lemma find_spec t sub a b :
  sub <> [] -> 0 <= a -> 0 <= b ->
  (find t sub a b = -1 /\
   forall q, a <= q -> q + len sub <= b -> ~ occurs_at sub t q)
  \/
  (a <= find t sub a b /\ find t sub a b + len sub <= b /\
   occurs_at sub t (find t sub a b) /\
   forall q, a <= q -> q < find t sub a b -> ~ occurs_at sub t q).
Proof.
  intros Hsub Ha Hb. unfold find.
  pose proof (len_nonneg t) as HL. pose proof (len_pos_of_nonempty _ Hsub) as Hp.
  rewrite !slice_index_nonneg by lia.
  set (a' := Z.min a (len t)). set (b' := Z.min b (len t)).
  set (n := Z.to_nat (b' - len sub - a' + 1)).
  destruct (find_scan_spec n sub (skipn (Z.to_nat a') t) a')
    as [[Hr Hnone] | (k & Hk & Hr & Hhit & Hfirst)].
  - left. split; [exact Hr|]. intros q Hq Hqb Hocc.
    pose proof Hocc as (_ & HqL & _).
    assert (Hq' : a' <= q) by lia.
    pose proof (occurs_starts_with sub t a' q ltac:(lia) Hq' Hocc) as Hs.
    rewrite Hnone in Hs by lia. discriminate.
  - right. rewrite Hr.
    pose proof (starts_with_occurs sub t a' k ltac:(lia) Hsub Hhit) as Hocc.
    pose proof Hocc as (_ & HpL & _).
    repeat split; try (apply Hocc); try lia.
    intros q Hq Hqp Hocc'.
    pose proof (occurs_starts_with sub t a' q ltac:(lia) ltac:(lia) Hocc') as Hs.
    rewrite Hfirst in Hs by lia. discriminate.
Qed.

(** [text.rfind(sub, a, b)] with non-negative bounds: [-1] when [sub] does
    not occur wholly between [a] and [b], and otherwise the last such
    occurrence. *)
Lemma rfind_spec t sub a b :
  sub <> [] -> 0 <= a -> 0 <= b ->
  (rfind t sub a b = -1 /\
   forall q, a <= q -> q + len sub <= b -> ~ occurs_at sub t q)
  \/
  (a <= rfind t sub a b /\ rfind t sub a b + len sub <= b /\
   occurs_at sub t (rfind t sub a b) /\
   forall q, rfind t sub a b < q -> q + len sub <= b -> ~ occurs_at sub t q).
Proof.
  intros Hsub Ha Hb. unfold rfind.
  pose proof (len_nonneg t) as HL. pose proof (len_pos_of_nonempty _ Hsub) as Hp.
  rewrite !slice_index_nonneg by lia.
  set (a' := Z.min a (len t)). set (b' := Z.min b (len t)).
  set (n := Z.to_nat (b' - len sub - a' + 1)).
  destruct (rfind_scan_spec n sub (skipn (Z.to_nat a') t) a' Hsub ltac:(lia))
    as [[Hr Hnone] | (k & Hk & Hr & Hhit & Hlast)].
  - left. split; [exact Hr|]. intros q Hq Hqb Hocc.
    pose proof Hocc as (_ & HqL & _).
    assert (Hq' : a' <= q) by lia.
    pose proof (occurs_starts_with sub t a' q ltac:(lia) Hq' Hocc) as Hs.
    rewrite Hnone in Hs by lia. discriminate.
  - right. rewrite Hr.
    pose proof (starts_with_occurs sub t a' k ltac:(lia) Hsub Hhit) as Hocc.
    pose proof Hocc as (_ & HpL & _).
    repeat split; try (apply Hocc); try lia.
    intros q Hq Hqb Hocc'.
    pose proof Hocc' as (_ & HqL & _).
    pose proof (occurs_starts_with sub t a' q ltac:(lia) ltac:(lia) Hocc') as Hs.
    rewrite Hlast in Hs by lia. discriminate.
Qed.

End PyStrFacts.

(** ** The loop body against the priority order *)

Module BoundaryFacts.
Import PyStr Chunker ChunkSpec PyStrFacts.
Local Open Scope Z_scope.

Lemma first_in_window_unique sub t lo hi p q :
  first_in_window sub t lo hi p -> first_in_window sub t lo hi q -> p = q.
Proof.
  intros (Hp1 & Hp2 & Hp3 & Hp4) (Hq1 & Hq2 & Hq3 & Hq4).
  destruct (Z.lt_trichotomy p q) as [H | [H | H]]; [|exact H|].
  - exfalso. exact (Hq4 p Hp1 H Hp3).
  - exfalso. exact (Hp4 q Hq1 H Hq3).
Qed.

Lemma last_in_window_unique sub t lo hi p q :
  last_in_window sub t lo hi p -> last_in_window sub t lo hi q -> p = q.
Proof.
  intros (Hp1 & Hp2 & Hp3 & Hp4) (Hq1 & Hq2 & Hq3 & Hq4).
  destruct (Z.lt_trichotomy p q) as [H | [H | H]]; [|exact H|].
  - exfalso. exact (Hp4 q H Hq2 Hq3).
  - exfalso. exact (Hq4 p H Hp2 Hp3).
Qed.

Lemma first_not_none sub t lo hi p :
  first_in_window sub t lo hi p -> none_in_window sub t lo hi -> False.
Proof. intros (H1 & H2 & H3 & _) Hn. exact (Hn p H1 H2 H3). Qed.

Lemma last_not_none sub t lo hi p :
  last_in_window sub t lo hi p -> none_in_window sub t lo hi -> False.
Proof. intros (H1 & H2 & H3 & _) Hn. exact (Hn p H1 H2 H3). Qed.

(** The priority order prescribes one end position. *)
Lemma boundary_end_unique text chunk_size start e1 e2 :
  boundary_end text chunk_size start e1 ->
  boundary_end text chunk_size start e2 -> e1 = e2.
Proof.
  intros H1 H2.
  destruct H1 as [p Hp | p Hn Hp | p Hn Hn' Hp | Hn Hn' Hn''];
  destruct H2 as [q Hq | q Hm Hq | q Hm Hm' Hq | Hm Hm' Hm''];
  try reflexivity;
  try (exfalso; eauto using first_not_none, last_not_none; fail).
  - f_equal. eapply first_in_window_unique; eassumption.
  - f_equal. eapply first_in_window_unique; eassumption.
  - f_equal. eapply last_in_window_unique; eassumption.
Qed.

Lemma paragraph_sep_len : len paragraph_sep = 2.
Proof. reflexivity. Qed.
Lemma sentence_sep_len : len sentence_sep = 2.
Proof. reflexivity. Qed.
Lemma space_sep_len : len space_sep = 1.
Proof. reflexivity. Qed.

(** While the candidate lies strictly inside the text, the loop body picks
    the end position the priority order prescribes. *)
Lemma chunk_end_boundary text chunk_size start :
  0 <= start -> 0 <= chunk_size -> start + chunk_size < len text ->
  boundary_end text chunk_size start (chunk_end text chunk_size start).
Proof.
  intros Hs Hc Hlt. unfold chunk_end.
  assert (H2 : 0 <= chunk_size / 2) by (apply Z.div_pos; lia).
  assert (H4 : 0 <= chunk_size / 4) by (apply Z.div_pos; lia).
  assert (H8 : 0 <= chunk_size / 8) by (apply Z.div_pos; lia).
  assert (H2' : chunk_size / 2 <= chunk_size) by (apply Z.div_le_upper_bound; lia).
  assert (H4' : chunk_size / 4 <= chunk_size) by (apply Z.div_le_upper_bound; lia).
  assert (H8' : chunk_size / 8 <= chunk_size) by (apply Z.div_le_upper_bound; lia).
  destruct (Z.ltb_spec (start + chunk_size) (len text)) as [_|]; [|lia].
  destruct (find_spec text paragraph_sep
              (start + chunk_size - chunk_size / 2)
              (start + chunk_size + chunk_size / 2))
    as [[Hp Hnp] | (Hp1 & Hp2 & Hp3 & Hp4)]; [easy | lia | lia | |].
  2:{ destruct (Z.eqb_spec (find text paragraph_sep
              (start + chunk_size - chunk_size / 2)
              (start + chunk_size + chunk_size / 2)) (-1)) as [E|_]; [lia|].
      simpl. pose proof Hp3 as (_ & Hb & _). rewrite paragraph_sep_len in Hb.
      rewrite Z.min_l by lia. apply end_paragraph. red; auto. }
  rewrite Hp. simpl.
  destruct (find_spec text sentence_sep
              (start + chunk_size - chunk_size / 4)
              (start + chunk_size + chunk_size / 4))
    as [[Hq Hnq] | (Hq1 & Hq2 & Hq3 & Hq4)]; [easy | lia | lia | |].
  2:{ destruct (Z.eqb_spec (find text sentence_sep
              (start + chunk_size - chunk_size / 4)
              (start + chunk_size + chunk_size / 4)) (-1)) as [E|_]; [lia|].
      simpl. pose proof Hq3 as (_ & Hb & _). rewrite sentence_sep_len in Hb.
      rewrite Z.min_l by lia. apply end_sentence; [exact Hnp|].
      red; auto. }
  rewrite Hq. simpl.
  destruct (rfind_spec text space_sep
              (start + chunk_size - chunk_size / 8) (start + chunk_size))
    as [[Hr Hnr] | (Hr1 & Hr2 & Hr3 & Hr4)]; [easy | lia | lia | |].
  - rewrite Hr. simpl. apply end_raw; assumption.
  - destruct (Z.eqb_spec (rfind text space_sep
              (start + chunk_size - chunk_size / 8) (start + chunk_size)) (-1))
      as [E|_]; [lia|].
    simpl. pose proof Hr3 as (_ & Hb & _). rewrite space_sep_len in Hb.
    rewrite Z.min_l by lia. apply end_space; [exact Hnp | exact Hnq |].
    red; auto.
Qed.

(** Once the candidate reaches the end of the text nothing is searched. *)
Lemma chunk_end_past text chunk_size start :
  len text <= start + chunk_size -> chunk_end text chunk_size start = len text.
Proof.
  intros H. unfold chunk_end.
  destruct (Z.ltb_spec (start + chunk_size) (len text)); lia.
Qed.

End BoundaryFacts.

(** ** Progress, termination and coverage of the chunking loop *)

Module ChunkFacts.
Import PyStr Chunker ChunkSpec PyStrFacts BoundaryFacts.
Local Open Scope Z_scope.

Lemma chunk_end_le_len text chunk_size start :
  chunk_end text chunk_size start <= len text.
Proof. unfold chunk_end. apply Z.le_min_r. Qed.

Lemma next_start_advances start e overlap : start < next_start start e overlap.
Proof. unfold next_start. destruct (Z.leb_spec (e - overlap) start); lia. Qed.

Lemma next_start_forced start e overlap :
  e - overlap <= start -> next_start start e overlap = start + 1.
Proof. intros H. unfold next_start. destruct (Z.leb_spec (e - overlap) start); lia. Qed.

Lemma next_start_free start e overlap :
  start < e - overlap -> next_start start e overlap = e - overlap.
Proof. intros H. unfold next_start. destruct (Z.leb_spec (e - overlap) start); lia. Qed.

(** The chunks built so far are only ever extended. *)
Lemma split_loop_acc fuel : forall text chunk_size overlap start chunks,
  split_loop fuel text chunk_size overlap start chunks =
  option_map (app chunks) (split_loop fuel text chunk_size overlap start []).
Proof.
  induction fuel as [|fuel IH]; intros text cs ov s chunks; simpl; [reflexivity|].
  destruct (s <? len text); [|simpl; rewrite app_nil_r; reflexivity].
  destruct (next_start s (chunk_end text cs s) ov >=? len text).
  - reflexivity.
  - rewrite IH. rewrite (IH _ _ _ _ [_]).
    destruct (split_loop fuel text cs ov _ []); simpl; [|reflexivity].
    rewrite <- app_assoc. reflexivity.
Qed.

(** One round of the loop, with the chunk list of the remaining rounds
    computed from scratch. *)
Lemma split_loop_step fuel text chunk_size overlap start :
  start < len text ->
  split_loop (S fuel) text chunk_size overlap start [] =
  let e := chunk_end text chunk_size start in
  let start' := next_start start e overlap in
  if start' >=? len text then Some [slice text start e]
  else option_map (cons (slice text start e))
         (split_loop fuel text chunk_size overlap start' []).
Proof.
  intros H. simpl. destruct (Z.ltb_spec start (len text)); [|lia].
  destruct (_ >=? _); [reflexivity|]. rewrite split_loop_acc. reflexivity.
Qed.

(** With one unit of fuel for every position from [start] on, the loop ends
    in a break or in its exit test, with at least one chunk and at most one
    chunk per unit of fuel. *)
Lemma split_loop_total fuel : forall text chunk_size overlap start,
  start < len text -> len text - start <= Z.of_nat fuel ->
  exists chunks,
    split_loop fuel text chunk_size overlap start [] = Some chunks /\
    chunks <> [] /\ (length chunks <= fuel)%nat.
Proof.
  induction fuel as [|fuel IH]; intros text cs ov s Hs Hf; [lia|].
  rewrite split_loop_step by assumption. cbv zeta.
  pose proof (next_start_advances s (chunk_end text cs s) ov) as Hadv.
  destruct (Z.geb_spec (next_start s (chunk_end text cs s) ov) (len text)) as [Hge|Hlt].
  - eexists. split; [reflexivity|]. split; [easy | simpl; lia].
  - destruct (IH text cs ov _ Hlt ltac:(lia)) as (r & Hr & _ & Hlen).
    rewrite Hr. simpl. eexists. split; [reflexivity|]. split; [easy | simpl; lia].
Qed.

(** More fuel never changes a result. *)
Lemma split_loop_more_fuel fuel : forall fuel' text chunk_size overlap start chunks r,
  split_loop fuel text chunk_size overlap start chunks = Some r ->
  (fuel <= fuel')%nat ->
  split_loop fuel' text chunk_size overlap start chunks = Some r.
Proof.
  induction fuel as [|fuel IH]; intros fuel' text cs ov s chunks r H Hle; [discriminate|].
  destruct fuel' as [|fuel']; [lia|]. simpl in *.
  destruct (s <? len text); [|exact H].
  destruct (_ >=? _); [exact H|]. apply IH; [exact H | lia].
Qed.

(** [_split_text] always returns. *)
Lemma split_text_total text chunk_size overlap :
  exists chunks, split_text text chunk_size overlap = Some chunks /\
                 (text <> [] -> chunks <> []) /\
                 (length chunks <= length text)%nat.
Proof.
  unfold split_text. destruct text as [|c text].
  - exists []. split; [reflexivity|]. split; [easy | simpl; lia].
  - destruct (len (c :: text) <=? chunk_size).
    + eexists. split; [reflexivity|]. split; [easy | simpl; lia].
    + destruct (split_loop_total (length (c :: text)) (c :: text) chunk_size overlap 0)
        as (r & Hr & Hne & Hlen).
      * unfold len. simpl. lia.
      * unfold len. lia.
      * exists r. auto.
Qed.

(** Below the text end a chunk is at least as long as the shortest distance
    any of the three searches can leave. *)
Lemma chunk_end_lower text chunk_size start :
  0 <= start -> 0 <= chunk_size -> start + chunk_size < len text ->
  start + Z.min chunk_size (chunk_size - chunk_size / 2 + 2)
    <= chunk_end text chunk_size start.
Proof.
  intros Hs Hc Hlt.
  destruct (chunk_end_boundary text chunk_size start Hs Hc Hlt)
    as [p (H1 & _) | p _ (H1 & _) | p _ _ (H1 & _) | _ _ _];
    Z.div_mod_to_equations; lia.
Qed.

Section Coverage.

Variable text : list ascii.
Variables chunk_size overlap : Z.
Hypothesis overlap_nonneg : 0 <= overlap.
Hypothesis overlap_lt_size : overlap < chunk_size.
Hypothesis overlap_lt_shortest : overlap < chunk_size - chunk_size / 2 + 2.

Lemma skipn_len_nil (t : list ascii) n : len t <= n -> skipn (Z.to_nat n) t = [].
Proof. intros H. apply skipn_all2. unfold len in H. lia. Qed.

Lemma trim_glue start c e :
  0 <= start -> start <= e -> e <= len text -> covered text chunk_size overlap start c -> c <= e ->
  drop_overlap overlap (slice text start e) ++ skipn (Z.to_nat e) text
  = skipn (Z.to_nat c) text.
Proof.
  intros Hs Hse HeL Hcov Hce. unfold drop_overlap.
  rewrite slice_inside by lia.
  destruct Hcov as [[-> HcL] | (-> & Ho & Hc)].
  - rewrite skipn_firstn_comm, skipn_skipn.
    replace (Z.to_nat overlap + Z.to_nat start)%nat
      with (Z.to_nat (start + overlap)) by lia.
    replace (Z.to_nat e)
      with (Z.to_nat (e - start) - Z.to_nat overlap + Z.to_nat (start + overlap))%nat
      by lia.
    rewrite <- skipn_skipn. apply firstn_skipn.
  - assert (e = len text) as -> by lia.
    rewrite (skipn_len_nil text (len text)) by lia. rewrite app_nil_r.
    apply skipn_all2. rewrite length_firstn, length_skipn. unfold len in *. lia.
Qed.

Lemma cover_loop fuel : forall start c,
  0 <= start -> start < len text -> covered text chunk_size overlap start c ->
  len text - start <= Z.of_nat fuel ->
  exists chunks,
    split_loop fuel text chunk_size overlap start [] = Some chunks /\
    concat (map (drop_overlap overlap) chunks) = skipn (Z.to_nat c) text.
Proof.
  induction fuel as [|fuel IH]; intros s c Hs HsL Hcov Hf; [lia|].
  rewrite split_loop_step by assumption. cbv zeta.
  pose proof (chunk_end_le_len text chunk_size s) as HeL.
  pose proof (next_start_advances s (chunk_end text chunk_size s) overlap) as Hadv.
  set (e := chunk_end text chunk_size s) in *.
  set (s' := next_start s e overlap) in *.
  assert (Hfacts : s <= e /\ c <= e /\ (len text <= s' -> e = len text) /\ covered text chunk_size overlap s' e).
  { destruct (Z.lt_ge_cases (s + chunk_size) (len text)) as [Hin | Hout].
    - pose proof (chunk_end_lower text chunk_size s Hs ltac:(lia) Hin) as Hlow.
      fold e in Hlow.
      assert (Hfree : s' = e - overlap) by (apply next_start_free; lia).
      destruct Hcov as [[-> HcL] | (-> & Ho & Hc)]; [|lia].
      repeat split; try lia. left. lia.
    - assert (He : e = len text) by (apply chunk_end_past; lia).
      assert (Hs' : len text <= s' + overlap).
      { destruct (Z.le_gt_cases (e - overlap) s) as [Hforce | Hfree].
        - unfold s'. rewrite next_start_forced by assumption. lia.
        - unfold s'. rewrite next_start_free by assumption. lia. }
      repeat split; try lia.
      + destruct Hcov as [[-> HcL] | (-> & Ho & Hc)]; lia.
      + right. lia. }
  destruct Hfacts as (Hse & Hce & Hbreak & Hcov').
  destruct (Z.geb_spec s' (len text)) as [Hge | Hlt].
  - eexists. split; [reflexivity|]. simpl. rewrite app_nil_r.
    rewrite <- (trim_glue s c e) by assumption.
    rewrite (skipn_len_nil text e) by lia. rewrite app_nil_r. reflexivity.
  - destruct (IH s' e ltac:(lia) Hlt Hcov' ltac:(lia)) as (rest & Hrest & Hcat).
    rewrite Hrest. simpl. eexists. split; [reflexivity|].
    simpl. rewrite Hcat. apply trim_glue; assumption.
Qed.

(** Coverage for a configuration whose overlap is shorter than every chunk
    the loop can cut below the text end. *)
Lemma split_text_reassemble :
  exists chunks, split_text text chunk_size overlap = Some chunks /\
                 reassemble overlap chunks = text.
Proof.
  unfold split_text. destruct text as [|a t0] eqn:Etext.
  - exists []. split; reflexivity.
  - rewrite <- Etext.
    destruct (Z.leb_spec (len text) chunk_size) as [Hle | Hgt].
    + exists [text]. split; [reflexivity|]. simpl. apply app_nil_r.
    + assert (Hlen : length text = S (length t0)) by (rewrite Etext; reflexivity).
      rewrite Hlen. rewrite split_loop_step by (unfold len; lia). cbv zeta.
      pose proof (chunk_end_le_len text chunk_size 0) as HeL.
      pose proof (chunk_end_lower text chunk_size 0 ltac:(lia) ltac:(lia) ltac:(lia)) as Hlow.
      set (e := chunk_end text chunk_size 0) in *.
      assert (Hfree : next_start 0 e overlap = e - overlap)
        by (apply next_start_free; lia).
      rewrite Hfree.
      assert (Hchunk : slice text 0 e = firstn (Z.to_nat e) text).
      { rewrite slice_inside by lia. rewrite Z.sub_0_r. reflexivity. }
      rewrite Hchunk.
      destruct (Z.geb_spec (e - overlap) (len text)) as [Hge | Hlt].
      * eexists. split; [reflexivity|]. simpl. rewrite app_nil_r.
        apply firstn_all2. unfold len in *. lia.
      * destruct (cover_loop (length t0) (e - overlap) e) as (rest & Hrest & Hcat).
        -- lia.
        -- exact Hlt.
        -- left. lia.
        -- unfold len in *. lia.
        -- rewrite Hrest. simpl. eexists. split; [reflexivity|].
           simpl. rewrite Hcat. apply firstn_skipn.
Qed.

End Coverage.

End ChunkFacts.

(** ** The fetch stage *)

Module FetchFacts.
Import Fetch.
Local Open Scope Z_scope.

Section Crawler.

Variable arun : string -> arun_result + string.
Variable cpu_count : Z.
Hypothesis cpu_count_pos : 1 <= cpu_count.

Lemma crawl_process_url url : result_url (crawl_process arun url) = url.
Proof. unfold crawl_process, crawl_async. destruct (arun url); reflexivity. Qed.

Lemma crawl_process_raises url e :
  arun url = inr e -> crawl_process arun url = Failed url e.
Proof. intros H. unfold crawl_process, crawl_async. rewrite H. reflexivity. Qed.

Lemma crawl_process_success url :
  result_success (crawl_process arun url) = false <-> exists e, arun url = inr e.
Proof.
  unfold crawl_process, crawl_async. destruct (arun url) as [r|e]; simpl.
  - split; [discriminate | intros [e He]; discriminate].
  - split; [eauto | reflexivity].
Qed.

Lemma failure_count_map urls :
  failure_count (map (crawl_process arun) urls) = raising_count arun urls.
Proof.
  unfold failure_count, raising_count.
  induction urls as [|u urls IH]; [reflexivity|].
  simpl. unfold crawl_process at 1, crawl_async at 1.
  destruct (arun u) as [r|e]; simpl; [exact IH | f_equal; exact IH].
Qed.

Lemma pool_processes_valid max_processes urls :
  valid_max_processes max_processes -> urls <> [] ->
  1 <= pool_processes cpu_count max_processes urls.
Proof.
  intros Hv Hne. unfold pool_processes.
  assert (1 <= Z.of_nat (length urls)) by (destruct urls; [done | simpl; lia]).
  destruct max_processes as [n|]; simpl in Hv; lia.
Qed.

(** With a worker count the pool accepts, [crawl] returns the image of the
    URL list under [crawl_process]. *)
Lemma crawl_returns max_processes urls :
  valid_max_processes max_processes ->
  exists pool,
    crawl arun cpu_count max_processes urls
    = Returned pool (map (crawl_process arun) urls).
Proof.
  intros Hv. unfold crawl. destruct urls as [|u urls]; [eauto|].
  pose proof (pool_processes_valid max_processes (u :: urls) Hv ltac:(done)) as Hp.
  destruct (Z.ltb_spec (pool_processes cpu_count max_processes (u :: urls)) 1);
    [lia | eauto].
Qed.

End Crawler.
End FetchFacts.

(** ** The frontier *)

Module FrontierFacts.
Import Frontier.
Local Open Scope Z_scope.
#[local] Set Warnings "-clear-no-such-hyp".

Section Invariants.

Variable max_depth : Z.
Variable urlparse_netloc : string -> option string.
Variable urljoin : string -> string -> option string.

Lemma puts_app tr1 tr2 : puts (tr1 ++ tr2) = puts tr1 ++ puts tr2.
Proof. apply omap_app. Qed.

Lemma saw_link_app tr evs u :
  saw_link (tr ++ evs) u <-> saw_link tr u \/ saw_link evs u.
Proof.
  unfold saw_link. split.
  - intros (p & d & H). apply elem_of_app in H as [H|H]; eauto.
  - intros [(p & d & H) | (p & d & H)]; exists p, d; apply elem_of_app; auto.
Qed.

Lemma saw_link_at_limit_app tr evs u :
  saw_link_at_limit max_depth (tr ++ evs) u <->
  saw_link_at_limit max_depth tr u \/ saw_link_at_limit max_depth evs u.
Proof.
  unfold saw_link_at_limit. split.
  - intros (p & d & H & Hd). apply elem_of_app in H as [H|H]; eauto.
  - intros [(p & d & H & Hd) | (p & d & H & Hd)]; exists p, d;
      (split; [apply elem_of_app; auto | exact Hd]).
Qed.

Lemma saw_link_one page d l u :
  saw_link [EvLink page d l] u <-> u = l.
Proof.
  unfold saw_link. split.
  - intros (p & d' & H). apply list_elem_of_singleton in H. congruence.
  - intros ->. exists page, d. apply list_elem_of_singleton. reflexivity.
Qed.

Lemma saw_link_two page d l l' d' u :
  saw_link [EvLink page d l; EvPut l' d'] u <-> u = l.
Proof.
  unfold saw_link. split.
  - intros (p & d0 & H). apply elem_of_cons in H as [H|H]; [congruence|].
    apply list_elem_of_singleton in H. discriminate.
  - intros ->. exists page, d. apply elem_of_cons. left. reflexivity.
Qed.

Lemma get_not_link page d l u d0 : EvGet u d0 ∈ [EvLink page d l] -> False.
Proof. intros H. apply list_elem_of_singleton in H. discriminate. Qed.

Lemma get_not_link_put page d l l' d' u d0 :
  EvGet u d0 ∈ [EvLink page d l; EvPut l' d'] -> False.
Proof.
  intros H. apply elem_of_cons in H as [H|H]; [discriminate|].
  apply list_elem_of_singleton in H. discriminate.
Qed.

Lemma doc_test tr st l :
  inv max_depth tr st ->
  forall u,
    u ∈ (if is_doc l then {[l]} ∪ doc_urls st else doc_urls st) <->
    is_doc u = true /\ (saw_link tr u \/ u = l).
Proof.
  intros Hinv u. pose proof (inv_docs _ _ _ Hinv) as Hdocs.
  destruct (is_doc l) eqn:Hl.
  - rewrite elem_of_union, elem_of_singleton, Hdocs. split.
    + intros [-> | [Hu Hs]]; auto.
    + intros [Hu [Hs | ->]]; auto.
  - rewrite Hdocs. split.
    + intros [Hu Hs]; auto.
    + intros [Hu [Hs | ->]]; [auto | congruence].
Qed.

(** A round that queues its link. *)
Lemma enqueue_inv tr st url depth l :
  inv max_depth tr st -> 1 <= depth -> depth < max_depth ->
  l ∉ queued_urls st ->
  inv max_depth (tr ++ [EvLink url depth l; EvPut l (depth + 1)])
    (mk_state (if is_doc l then {[l]} ∪ doc_urls st else doc_urls st)
       (visited_urls st) ({[l]} ∪ queued_urls st)
       (queue st ++ [(l, depth + 1)]) (workers st)).
Proof.
  intros Hinv Hd1 Hlt Hqd. pose proof (doc_test tr st l Hinv) as Hdocs'.
  destruct Hinv as [Hvis Hq Hw Hnd Hputs Hdocs Hgets Hdq].
  constructor; simpl.
  - set_solver.
  - intros u d Hin. apply elem_of_app in Hin as [Hin|Hin].
    + destruct (Hq u d Hin). split; [set_solver | done].
    + apply list_elem_of_singleton in Hin. injection Hin as -> ->.
      split; [set_solver | unfold depth_cap in *; lia].
  - exact Hw.
  - rewrite puts_app. simpl. apply NoDup_app. split; [exact Hnd|].
    split; [|apply NoDup_singleton].
    intros u Hu Hu'. apply list_elem_of_singleton in Hu'. subst u.
    apply Hqd. by apply Hputs.
  - intros u. rewrite puts_app. simpl.
    rewrite elem_of_app, list_elem_of_singleton, Hputs. set_solver.
  - intros u. rewrite Hdocs', saw_link_app, saw_link_two. reflexivity.
  - intros u d Hin. apply elem_of_app in Hin as [Hin|Hin]; [eauto|].
    by apply get_not_link_put in Hin.
  - intros u Hu. apply Hdocs' in Hu as [Hdoc [Hu | ->]]; [|set_solver].
    destruct (Hdq u) as [Hin | Hlim].
    + apply Hdocs. by split.
    + left. set_solver.
    + right. apply saw_link_at_limit_app. by left.
Qed.

(** A round that does not queue its link. *)
Lemma link_only_inv tr st url depth l :
  inv max_depth tr st ->
  max_depth <= depth \/ l ∈ visited_urls st \/ l ∈ queued_urls st ->
  inv max_depth (tr ++ [EvLink url depth l])
    (mk_state (if is_doc l then {[l]} ∪ doc_urls st else doc_urls st)
       (visited_urls st) (queued_urls st) (queue st) (workers st)).
Proof.
  intros Hinv Hwhy. pose proof (doc_test tr st l Hinv) as Hdocs'.
  destruct Hinv as [Hvis Hq Hw Hnd Hputs Hdocs Hgets Hdq].
  constructor; simpl; try done.
  - rewrite puts_app. simpl. by rewrite app_nil_r.
  - intros u. rewrite puts_app. simpl. by rewrite app_nil_r.
  - intros u. rewrite Hdocs', saw_link_app, saw_link_one. reflexivity.
  - intros u d Hin. apply elem_of_app in Hin as [Hin|Hin]; [eauto|].
    by apply get_not_link in Hin.
  - intros u Hu. apply Hdocs' in Hu as [Hdoc [Hu | ->]].
    + destruct (Hdq u) as [Hin | Hlim].
      * apply Hdocs. by split.
      * by left.
      * right. apply saw_link_at_limit_app. by left.
    + destruct Hwhy as [Hge | [Hv | Hqd]].
      * right. apply saw_link_at_limit_app. right.
        exists url, depth. split; [|exact Hge].
        apply list_elem_of_singleton. reflexivity.
      * left. by apply Hvis.
      * by left.
Qed.

(** One round of the link loop keeps the invariant. *)
Lemma process_link_inv tr st url depth link st' evs :
  inv max_depth tr st -> 1 <= depth ->
  process_link max_depth urlparse_netloc urljoin url depth link st = Some (st', evs) ->
  inv max_depth (tr ++ evs) st' /\
  visited_urls st' = visited_urls st /\ workers st' = workers st.
Proof.
  intros Hinv Hdepth Hstep. unfold process_link in Hstep.
  destruct (String.eqb link "").
  { injection Hstep as <- <-. by rewrite app_nil_r. }
  destruct (normalize urlparse_netloc urljoin url link) as [l|]; [|discriminate].
  destruct (Z.ltb_spec depth max_depth) as [Hlt|Hge]; simpl in Hstep.
  - destruct (bool_decide_reflect (l ∈ visited_urls st)) as [Hv|Hv];
      simpl in Hstep.
    + injection Hstep as <- <-. split; [|done]. apply link_only_inv; auto.
    + destruct (bool_decide_reflect (l ∈ queued_urls st)) as [Hqd|Hqd];
        simpl in Hstep; injection Hstep as <- <-; (split; [|done]).
      * apply link_only_inv; auto.
      * apply enqueue_inv; auto.
  - injection Hstep as <- <-. split; [|done]. apply link_only_inv; auto.
Qed.

(** The link loop keeps the invariant. *)
Lemma process_links_inv url depth links : forall tr st st' evs,
  inv max_depth tr st -> 1 <= depth ->
  process_links max_depth urlparse_netloc urljoin url depth links st = (st', evs) ->
  inv max_depth (tr ++ evs) st'.
Proof.
  induction links as [|link links IH]; intros tr st st' evs Hinv Hdepth Hrun;
    simpl in Hrun.
  - injection Hrun as <- <-. by rewrite app_nil_r.
  - destruct (process_link _ _ _ url depth link st) as [[st1 evs1]|] eqn:Hone.
    + destruct (process_links _ _ _ url depth links st1) as [st2 evs2] eqn:Hrest.
      injection Hrun as <- <-. rewrite app_assoc.
      apply (IH _ st1); [|done|done].
      by apply (process_link_inv tr st url depth link).
    + injection Hrun as <- <-. by rewrite app_nil_r.
Qed.

(** The seed is queued. *)
Lemma init_inv base_url concurrency :
  inv max_depth [EvPut base_url 1] (init base_url concurrency).
Proof.
  constructor; simpl.
  - set_solver.
  - intros u d Hin. apply list_elem_of_singleton in Hin. injection Hin as -> ->.
    split; [set_solver | unfold depth_cap; lia].
  - intros u d Hin. apply elem_of_replicate in Hin as [Hin _]. discriminate.
  - apply NoDup_singleton.
  - intros u. unfold puts. simpl. rewrite list_elem_of_singleton. set_solver.
  - intros u. split; [set_solver|]. intros [_ (p & d & Hin)].
    apply list_elem_of_singleton in Hin. discriminate.
  - intros u d Hin. apply list_elem_of_singleton in Hin. discriminate.
  - set_solver.
Qed.

(** A worker that takes a job keeps the invariant. *)
Lemma worker_get_inv i tr st st' evs :
  inv max_depth tr st -> worker_get i st = Some (st', evs) ->
  inv max_depth (tr ++ evs) st'.
Proof.
  intros [Hvis Hq Hw Hnd Hputs Hdocs Hgets Hdq] Hstep. unfold worker_get in Hstep.
  destruct (workers st !! i) as [[|]|] eqn:Hwi; try discriminate.
  destruct (queue st) as [|[url depth] q] eqn:Hqueue; [discriminate|].
  assert (Hhead : url ∈ queued_urls st /\ 1 <= depth <= depth_cap max_depth).
  { apply Hq. apply elem_of_cons. by left. }
  assert (Hq' : forall u d,
    (u, d) ∈ q -> u ∈ queued_urls st /\ 1 <= d <= depth_cap max_depth).
  { intros u d Hin. apply Hq. apply elem_of_cons. by right. }
  assert (Hgets' : forall u d,
    EvGet u d ∈ tr ++ [EvGet url depth] -> 1 <= d <= depth_cap max_depth).
  { intros u d Hin. apply elem_of_app in Hin as [Hin|Hin]; [eauto|].
    apply list_elem_of_singleton in Hin. injection Hin as -> ->. apply Hhead. }
  assert (Hsaw : forall u, saw_link (tr ++ [EvGet url depth]) u <-> saw_link tr u).
  { intros u. rewrite saw_link_app. split; [|by left].
    intros [H|(p & d & H)]; [done|].
    apply list_elem_of_singleton in H. discriminate. }
  assert (Hlim : forall u, saw_link_at_limit max_depth tr u ->
                           saw_link_at_limit max_depth (tr ++ [EvGet url depth]) u).
  { intros u H. apply saw_link_at_limit_app. by left. }
  assert (Hp : puts (tr ++ [EvGet url depth]) = puts tr).
  { rewrite puts_app. simpl. apply app_nil_r. }
  destruct (bool_decide_reflect (url ∈ visited_urls st)) as [Hv|Hv];
    injection Hstep as <- <-; constructor; simpl; rewrite ?Hp; try done.
  - intros u. by rewrite Hdocs, Hsaw.
  - intros u Hu. destruct (Hdq u Hu); auto.
  - set_solver.
  - intros u d Hin. apply list_elem_of_lookup in Hin as [j Hj].
    apply list_lookup_insert_Some in Hj as [(-> & Heq & _) | [Hne Hj]].
    + injection Heq as <- <-. split; [set_solver | apply Hhead].
    + destruct (Hw u d) as [Hu Hd]; [by eapply list_elem_of_lookup_2|].
      split; [set_solver | done].
  - intros u. by rewrite Hdocs, Hsaw.
  - intros u Hu. destruct (Hdq u Hu); auto.
Qed.

(** A worker that finishes a page keeps the invariant. *)
Lemma worker_resume_inv i links tr st st' evs :
  inv max_depth tr st ->
  worker_resume max_depth urlparse_netloc urljoin i links st = Some (st', evs) ->
  inv max_depth (tr ++ evs) st'.
Proof.
  intros Hinv Hstep. unfold worker_resume in Hstep.
  destruct (workers st !! i) as [[[url depth]|]|] eqn:Hwi; try discriminate.
  injection Hstep as Hstep.
  assert (Hjob : url ∈ visited_urls st /\ 1 <= depth <= depth_cap max_depth).
  { apply (inv_workers _ _ _ Hinv). by eapply list_elem_of_lookup_2. }
  eapply process_links_inv; [| apply Hjob | exact Hstep].
  destruct Hinv as [Hvis Hq Hw Hnd Hputs Hdocs Hgets Hdq].
  constructor; simpl; try done.
  intros u d Hin. apply list_elem_of_lookup in Hin as [j Hj].
  apply list_lookup_insert_Some in Hj as [(-> & Heq & _) | [Hne Hj]];
    [discriminate|].
  apply Hw. by eapply list_elem_of_lookup_2.
Qed.

(** Every state of an extraction satisfies the invariant. *)
Lemma run_inv base_url concurrency tr st :
  run max_depth urlparse_netloc urljoin base_url concurrency tr st ->
  inv max_depth tr st.
Proof.
  induction 1 as [|tr st a st' evs Hrun IH Hstep].
  - apply init_inv.
  - destruct a as [i | i links]; simpl in Hstep.
    + by eapply worker_get_inv.
    + by eapply worker_resume_inv.
Qed.

(** A schedule that can be replayed is an extraction. *)
Lemma replay_run base_url concurrency acts : forall tr st tr' st',
  run max_depth urlparse_netloc urljoin base_url concurrency tr st ->
  replay max_depth urlparse_netloc urljoin acts tr st = Some (tr', st') ->
  run max_depth urlparse_netloc urljoin base_url concurrency tr' st'.
Proof.
  induction acts as [|a acts IH]; intros tr st tr' st' Hrun Hre; simpl in Hre.
  - by injection Hre as <- <-.
  - destruct (perform _ _ _ a st) as [[st1 evs]|] eqn:Hp; [|discriminate].
    eapply IH; [|exact Hre]. by eapply run_step.
Qed.

End Invariants.
End FrontierFacts.

(** ** Properties of [_split_text] *)

Module ChunkerProperties.
Import PyStr Chunker ChunkSpec PyStrFacts BoundaryFacts ChunkFacts Samples.
Local Open Scope Z_scope.

(** C2, as stated, fails: with [chunk_size = 10] and [chunk_overlap = 50] the
    twelve letters are cut into twelve chunks that start one character apart;
    without their first 50 characters all chunks but the first are empty, and
    what is reassembled is the first ten letters only. *)
Lemma coverage_fails_when_overlap_exceeds_chunk :
  exists chunks,
    split_text twelve_letters 10 50 = Some chunks /\
    length chunks = 12%nat /\
    reassemble 50 chunks = str "abcdefghij" /\
    reassemble 50 chunks <> twelve_letters.
Proof.
  eexists. split; [vm_compute; reflexivity|].
  split; [reflexivity|]. split; [reflexivity|]. discriminate.
Qed.

(** C2, amended: for every text and every configuration with
    [0 <= overlap < chunk_size] and [overlap < chunk_size - chunk_size // 2 + 2]
    (the shortest chunk a boundary search can cut), [_split_text] returns, and
    the first chunk followed by the later chunks without their first
    [overlap] characters is the text. *)
Theorem split_text_coverage (text : list ascii) (chunk_size overlap : Z) :
  0 <= overlap -> overlap < chunk_size ->
  overlap < chunk_size - chunk_size / 2 + 2 ->
  exists chunks,
    split_text text chunk_size overlap = Some chunks /\
    reassemble overlap chunks = text.
Proof.
  intros H0 H1 H2. apply split_text_reassemble; assumption.
Qed.

Lemma split_text_coverage_prose :
  exists chunks,
    split_text prose 10 3 = Some chunks /\ reassemble 3 chunks = prose.
Proof.
  apply (split_text_coverage prose 10 3); [lia | lia | reflexivity].
Defined.

(** C3: [_split_text] returns for every text, chunk size and overlap
    (overlap 50 against chunk size 10 included), with at most one chunk per
    character and, for a text that is not empty, with at least one chunk;
    when the text is longer than the chunk size the loop runs, and more fuel
    than its length gives the same chunks. The next start is always past the
    current one, and it is [start + 1] whenever [end - chunk_overlap] would
    not advance. *)
Theorem split_text_terminates (text : list ascii) (chunk_size overlap : Z) :
  (exists chunks,
     split_text text chunk_size overlap = Some chunks /\
     (length chunks <= length text)%nat /\
     (text <> [] -> chunks <> []) /\
     (text <> [] -> chunk_size < len text ->
      forall fuel, (length text <= fuel)%nat ->
        split_loop fuel text chunk_size overlap 0 [] = Some chunks)) /\
  (forall start e,
     start < next_start start e overlap /\
     (e - overlap <= start -> next_start start e overlap = start + 1)).
Proof.
  split.
  - destruct (split_text_total text chunk_size overlap) as (chunks & Hs & Hne & Hlen).
    exists chunks. split; [exact Hs|]. split; [exact Hlen|]. split; [exact Hne|].
    intros Htext Hlong fuel Hfuel. unfold split_text in Hs.
    destruct text as [|c text]; [done|].
    destruct (Z.leb_spec (len (c :: text)) chunk_size); [lia|].
    eapply split_loop_more_fuel; eassumption.
  - intros start e. split.
    + apply next_start_advances.
    + apply next_start_forced.
Qed.

(** The configuration of the termination property: chunk size 10, overlap
    50, a text of twelve characters. *)
Example split_text_overlap_50 :
  split_text twelve_letters 10 50 =
  Some (map str ["abcdefghij"; "bcdefghijk"; "cdefghijkl"; "defghijkl";
                 "efghijkl"; "fghijkl"; "ghijkl"; "hijkl"; "ijkl"; "jkl";
                 "kl"; "l"]%string).
Proof. vm_compute. reflexivity. Qed.

(** C8, as stated, fails for a chunk whose candidate end is not before the
    text end: there the code searches nothing. The second chunk of this text
    starts at 8, its candidate end 18 is the text end, and a paragraph break
    lies at 14, within 5 characters of the candidate: the priority order
    prescribes the end 16, the code ends the chunk at 18. *)
Lemma no_search_when_candidate_reaches_text_end :
  split_text break_near_end 10 2 =
    Some [slice break_near_end 0 10;
          slice break_near_end 8 (chunk_end break_near_end 10 8);
          slice break_near_end 16 18; slice break_near_end 17 18] /\
  chunk_end break_near_end 10 8 = 18 /\
  boundary_end break_near_end 10 8 16 /\
  ~ boundary_end break_near_end 10 8 (chunk_end break_near_end 10 8).
Proof.
  assert (Hspec : boundary_end break_near_end 10 8 16).
  { apply (end_paragraph break_near_end 10 8 14).
    split; [vm_compute; discriminate|]. split; [vm_compute; discriminate|].
    split.
    - split; [lia|]. split; [vm_compute; discriminate | reflexivity].
    - intros q Hlo Hhi. change (8 + 10 - 10 / 2) with 13 in Hlo.
      assert (q = 13) as -> by lia. intros (_ & _ & Hocc). discriminate Hocc. }
  split; [vm_compute; reflexivity|]. split; [reflexivity|].
  split; [exact Hspec|].
  intros Hcode. pose proof (boundary_end_unique _ _ _ _ _ Hspec Hcode) as Heq.
  vm_compute in Heq. discriminate Heq.
Qed.

(** C8, amended: for a chunk that starts at [start >= 0] with a candidate end
    [start + chunk_size] strictly before the text end, the end position is
    the one the priority order prescribes (paragraph break within
    [chunk_size // 2] on either side of the candidate, else sentence break
    within [chunk_size // 4], else the last space in the [chunk_size // 8]
    characters before it, the boundary extended by its separator, else the
    candidate); for a chunk whose candidate end is not before the text end,
    the end position is the text end. *)
Theorem chunk_end_priority (text : list ascii) (chunk_size start : Z) :
  0 <= start -> 0 <= chunk_size ->
  (start + chunk_size < len text /\
   boundary_end text chunk_size start (chunk_end text chunk_size start)) \/
  (len text <= start + chunk_size /\
   chunk_end text chunk_size start = len text).
Proof.
  intros Hs Hc.
  destruct (Z.lt_ge_cases (start + chunk_size) (len text)) as [Hlt | Hge].
  - left. split; [exact Hlt|]. apply chunk_end_boundary; assumption.
  - right. split; [exact Hge|]. apply chunk_end_past. exact Hge.
Qed.

Lemma chunk_end_priority_prose :
  (7 + 10 < len prose /\ boundary_end prose 10 7 (chunk_end prose 10 7)) \/
  (len prose <= 7 + 10 /\ chunk_end prose 10 7 = len prose).
Proof.
  apply (chunk_end_priority prose 10 7); lia.
Defined.

(** The three kinds of boundary on the sample prose: the sentence break at
    11 ends the chunk from 2 at 13; the space at 17 ends the chunk from 8 at
    18; no boundary is in reach of the chunk from 0, which ends at the
    candidate 10. *)
Example chunk_end_prose :
  chunk_end prose 10 2 = 13 /\ chunk_end prose 10 8 = 18 /\
  chunk_end prose 10 0 = 10 /\ chunk_end break_near_end 12 0 = 16.
Proof. repeat split; reflexivity. Qed.

(** C9: [_split_text] of the empty string is the empty list whatever the
    chunk size and overlap, and of a non-empty text no longer than the chunk
    size it is the text as a single chunk; so for "short text" with chunk
    size 1000 and overlap 200. *)
Theorem split_text_short_inputs (text : list ascii) (chunk_size overlap : Z) :
  split_text [] chunk_size overlap = Some [] /\
  (text <> [] -> len text <= chunk_size ->
   split_text text chunk_size overlap = Some [text]) /\
  split_text (str "short text") 1000 200 = Some [str "short text"].
Proof.
  split; [reflexivity|]. split; [|reflexivity].
  intros Hne Hle. unfold split_text. destruct text as [|c text]; [done|].
  destruct (Z.leb_spec (len (c :: text)) chunk_size); [reflexivity | lia].
Qed.

End ChunkerProperties.

(** ** Properties of the fetch stage *)

Module FetchProperties.
Import Fetch FetchFacts Samples.
Local Open Scope Z_scope.

(** C6: whatever the URL list, for a worker count the pool accepts, an
    exception raised while one URL is fetched becomes that URL's result with
    [success = False] and the exception's message as [error]; [crawl]
    returns one result per input URL, the i-th being the result of the i-th
    URL, and as many of them have [success = False] as there are URLs whose
    fetch raises. *)
Theorem fetch_failure_is_recorded
    (arun : string -> arun_result + string) (cpu_count : Z)
    (max_processes : option Z) (urls : list string) :
  1 <= cpu_count -> valid_max_processes max_processes ->
  exists pool results,
    crawl arun cpu_count max_processes urls = Returned pool results /\
    length results = length urls /\
    failure_count results = raising_count arun urls /\
    (forall i url, urls !! i = Some url ->
       results !! i = Some (crawl_process arun url)) /\
    (forall url e, arun url = inr e ->
       crawl_process arun url = Failed url e /\
       result_success (crawl_process arun url) = false /\
       result_error (crawl_process arun url) = Some e).
Proof.
  intros Hcpu Hvalid.
  destruct (crawl_returns arun cpu_count Hcpu max_processes urls Hvalid) as [pool Hc].
  exists pool, (map (crawl_process arun) urls).
  split; [exact Hc|]. split; [apply length_map|].
  split; [apply failure_count_map|]. split.
  - intros i url Hi. rewrite list_lookup_fmap, Hi. reflexivity.
  - intros url e He. rewrite (crawl_process_raises arun url e He). auto.
Qed.

Lemma fetch_failure_is_recorded_three_urls :
  exists pool results,
    crawl second_raises 4 None three_urls = Returned pool results /\
    length results = length three_urls /\
    failure_count results = raising_count second_raises three_urls /\
    (forall i url, three_urls !! i = Some url ->
       results !! i = Some (crawl_process second_raises url)) /\
    (forall url e, second_raises url = inr e ->
       crawl_process second_raises url = Failed url e /\
       result_success (crawl_process second_raises url) = false /\
       result_error (crawl_process second_raises url) = Some e).
Proof.
  apply (fetch_failure_is_recorded second_raises 4 None three_urls); [lia | exact I].
Defined.

(** Three URLs, the second of which raises: three results, one failure. *)
Example three_urls_one_failure :
  crawl second_raises 4 None three_urls =
    Returned (Some 3)
      [Fetched "https://x.com/docs/a" "# Title" "<p></p>" "";
       Failed "https://x.com/docs/b" "Timeout 30000ms exceeded";
       Fetched "https://x.com/docs/c" "# Title" "<p></p>" ""] /\
  raising_count second_raises three_urls = 1%nat.
Proof. split; reflexivity. Qed.

(** Why the worker count must be one the pool accepts: with
    [max_processes = 0] the pool constructor raises before any URL is
    fetched. *)
Example crawl_rejects_zero_processes :
  crawl second_raises 4 (Some 0) three_urls =
  Raised "Number of processes must be at least 1".
Proof. reflexivity. Qed.

(** C10: for a worker count the pool accepts, the results come in the order
    of the input list: the [url] fields of the results, read in order, are
    the input list, so the i-th result's [url] is the i-th input URL. *)
Theorem crawl_keeps_input_order
    (arun : string -> arun_result + string) (cpu_count : Z)
    (max_processes : option Z) (urls : list string) :
  1 <= cpu_count -> valid_max_processes max_processes ->
  exists pool results,
    crawl arun cpu_count max_processes urls = Returned pool results /\
    map result_url results = urls /\
    (forall i, result_url <$> results !! i = urls !! i).
Proof.
  intros Hcpu Hvalid.
  destruct (crawl_returns arun cpu_count Hcpu max_processes urls Hvalid) as [pool Hc].
  exists pool, (map (crawl_process arun) urls). split; [exact Hc|].
  assert (Hmap : map result_url (map (crawl_process arun) urls) = urls).
  { rewrite map_map. rewrite <- (map_id urls) at 2.
    apply map_ext. apply crawl_process_url. }
  split; [exact Hmap|].
  intros i. rewrite <- list_lookup_fmap. change (fmap result_url) with (map result_url).
  rewrite Hmap. reflexivity.
Qed.

Lemma crawl_keeps_input_order_three_urls :
  exists pool results,
    crawl second_raises 4 (Some 2) three_urls = Returned pool results /\
    map result_url results = three_urls /\
    (forall i, result_url <$> results !! i = three_urls !! i).
Proof.
  apply (crawl_keeps_input_order second_raises 4 (Some 2) three_urls);
    [lia | simpl; lia].
Defined.

(** C7, as stated, fails: a requested worker count above the core count is
    not cut down to it. On a host with 2 cores, 3 requested workers (what
    [KnowledgeBaseGenerator] passes by default) and 5 URLs make a pool of 3
    processes, where the stated formula gives 2. *)
Lemma pool_exceeds_core_count :
  crawl second_raises 2 (Some 3) five_urls =
    Returned (Some 3) (map (crawl_process second_raises) five_urls) /\
  spec_worker_count 2 (Some 3) five_urls = 2 /\
  pool_processes 2 (Some 3) five_urls <> spec_worker_count 2 (Some 3) five_urls.
Proof. split; [reflexivity|]. split; [reflexivity | discriminate]. Qed.

(** C7, amended: for the empty URL list [crawl] returns the empty list and
    creates no pool; for a non-empty URL list and a worker count the pool
    accepts, the pool has [min(requested, len(urls))] processes, where
    [requested] is the core count when no count is given; this is the
    stated [min(requested, coreCount, len(urls))] whenever the requested
    count, or the number of URLs, does not exceed the core count. *)
Theorem crawl_worker_count
    (arun : string -> arun_result + string) (cpu_count : Z)
    (max_processes : option Z) (urls : list string) :
  1 <= cpu_count -> valid_max_processes max_processes ->
  crawl arun cpu_count max_processes [] = Returned None [] /\
  (urls <> [] ->
   exists results,
     crawl arun cpu_count max_processes urls =
       Returned (Some (Z.min (default cpu_count max_processes)
                             (Z.of_nat (length urls)))) results) /\
  (default cpu_count max_processes <= cpu_count \/
   Z.of_nat (length urls) <= cpu_count ->
   pool_processes cpu_count max_processes urls =
   spec_worker_count cpu_count max_processes urls).
Proof.
  intros Hcpu Hvalid. split; [reflexivity|]. split.
  - intros Hne. unfold crawl. destruct urls as [|u urls]; [done|].
    pose proof (pool_processes_valid cpu_count Hcpu max_processes (u :: urls)
                  Hvalid ltac:(done)) as Hp.
    destruct (Z.ltb_spec (pool_processes cpu_count max_processes (u :: urls)) 1);
      [lia|].
    eexists. unfold pool_processes. destruct max_processes; reflexivity.
  - intros Hle. unfold pool_processes, spec_worker_count.
    destruct max_processes as [n|]; simpl in *; lia.
Qed.

Lemma crawl_worker_count_five_urls :
  crawl second_raises 8 (Some 3) [] = Returned None [] /\
  (five_urls <> [] ->
   exists results,
     crawl second_raises 8 (Some 3) five_urls =
       Returned (Some (Z.min (default 8 (Some 3))
                             (Z.of_nat (length five_urls)))) results) /\
  (default 8 (Some 3) <= 8 \/ Z.of_nat (length five_urls) <= 8 ->
   pool_processes 8 (Some 3) five_urls =
   spec_worker_count 8 (Some 3) five_urls).
Proof.
  apply (crawl_worker_count second_raises 8 (Some 3) five_urls);
    [lia | simpl; lia].
Defined.

End FetchProperties.

(** ** Properties of the frontier *)

Module FrontierProperties.
Import Frontier FrontierFacts Samples.
Local Open Scope Z_scope.

(** The documentation filter on the two test URLs, and on capital letters. *)
Example is_doc_examples :
  is_doc "https://x.com/docs/a" = true /\ is_doc "https://x.com/about" = false /\
  is_doc "https://x.com/Docs/b" = true /\ is_doc "https://x.com/DOCUMENTS" = true.
Proof. repeat split; reflexivity. Qed.

(** C1, as stated, fails for the seed: the seed is queued and crawled, but
    only the links found on crawled pages are tested for 'doc'. An
    extraction from the seed [https://x.com/docs/a], a page without links,
    finishes with an empty result although the seed contains 'doc'. *)
Lemma seed_is_not_tested_for_doc :
  exists tr st,
    run 3 absolute_netloc join_unused docs_a 1 tr st /\
    finished st /\ is_doc docs_a = true /\
    doc_urls st = ∅ /\ docs_a ∉ doc_urls st.
Proof.
  exists [EvPut docs_a 1; EvGet docs_a 1],
         (mk_state ∅ {[docs_a]} {[docs_a]} [] [None]).
  split.
  { apply (replay_run 3 absolute_netloc join_unused docs_a 1 lone_page
             [EvPut docs_a 1] (init docs_a 1)); [apply run_init|].
    vm_compute. reflexivity. }
  split; [split; [reflexivity | repeat constructor]|].
  split; [reflexivity|]. split; [reflexivity|]. set_solver.
Qed.

(** C1, amended: at every point of an extraction, and so in what it
    returns, a URL is in the documentation-URL set iff the link loop of some
    crawled page reached it (as a link, resolved to an absolute URL) and its
    lowercase form contains 'doc'; no URL without that substring is ever in
    the set, and the seed is in it only when a crawled page links to it. *)
Theorem doc_urls_are_doc_links
    (max_depth : Z) (urlparse_netloc : string -> option string)
    (urljoin : string -> string -> option string)
    (base_url : string) (concurrency : nat) (tr : list event) (st : state) :
  run max_depth urlparse_netloc urljoin base_url concurrency tr st ->
  forall u, u ∈ doc_urls st <-> is_doc u = true /\ saw_link tr u.
Proof.
  intros Hrun. apply (inv_docs max_depth tr st).
  eapply run_inv. exact Hrun.
Qed.

(** The schedule [cyclic_site] is an extraction of depth 3 with two
    workers. *)
Lemma cyclic_site_run :
  run 3 absolute_netloc join_unused home 2 cyclic_trace cyclic_final.
Proof.
  apply (replay_run 3 absolute_netloc join_unused home 2 cyclic_site
           [EvPut home 1] (init home 2)); [apply run_init|].
  vm_compute. reflexivity.
Qed.

Lemma doc_urls_are_doc_links_cyclic_site :
  docs_b ∈ doc_urls cyclic_final <->
  is_doc docs_b = true /\ saw_link cyclic_trace docs_b.
Proof.
  apply (doc_urls_are_doc_links 3 absolute_netloc join_unused home 2
           cyclic_trace cyclic_final cyclic_site_run docs_b).
Defined.

(** C4, as stated, fails for [max_depth = 0]: the seed is queued at depth 1
    whatever [max_depth] is, and a worker takes it. *)
Lemma seed_is_processed_at_depth_1 :
  exists tr st,
    run 0 absolute_netloc join_unused docs_a 1 tr st /\
    exists u d, EvGet u d ∈ tr /\ d > 0.
Proof.
  exists [EvPut docs_a 1; EvGet docs_a 1],
         (mk_state ∅ {[docs_a]} {[docs_a]} [] [Some (docs_a, 1)]).
  split.
  { apply (replay_run 0 absolute_netloc join_unused docs_a 1 [Get 0%nat]
             [EvPut docs_a 1] (init docs_a 1)); [apply run_init|].
    vm_compute. reflexivity. }
  exists docs_a, 1. split; [|lia].
  apply list_elem_of_further, list_elem_of_here.
Qed.

(** C4, amended: every job a worker takes has a depth between 1 and
    [max(1, max_depth)]; so for every [max_depth >= 1] no job taken has a
    depth greater than [max_depth], and for [max_depth <= 0] the seed, at
    depth 1, is the only job. *)
Theorem processed_depth_bound
    (max_depth : Z) (urlparse_netloc : string -> option string)
    (urljoin : string -> string -> option string)
    (base_url : string) (concurrency : nat) (tr : list event) (st : state)
    (u : string) (d : Z) :
  run max_depth urlparse_netloc urljoin base_url concurrency tr st ->
  EvGet u d ∈ tr ->
  1 <= d /\ d <= Z.max 1 max_depth /\ (1 <= max_depth -> d <= max_depth).
Proof.
  intros Hrun Hget.
  pose proof (inv_gets max_depth tr st (run_inv _ _ _ _ _ _ _ Hrun) u d Hget) as Hd.
  unfold depth_cap in Hd. lia.
Qed.

Lemma processed_depth_bound_cyclic_site :
  1 <= 3 /\ 3 <= Z.max 1 3 /\ (1 <= 3 -> 3 <= 3).
Proof.
  apply (processed_depth_bound 3 absolute_netloc join_unused home 2
           cyclic_trace cyclic_final docs_b 3 cyclic_site_run).
  unfold cyclic_trace. do 14 apply list_elem_of_further. apply list_elem_of_here.
Defined.

(** C5, as stated, fails in [docUrls ⊆ queued]: a link is added to the
    documentation URLs whether or not it is queued. With [max_depth = 1]
    the links of the seed are tested for 'doc' and none is queued. *)
Lemma doc_url_at_depth_limit_is_not_queued :
  exists tr st,
    run 1 absolute_netloc join_unused home 1 tr st /\ finished st /\
    doc_urls st = {[docs_a]} /\ queued_urls st = {[home]} /\
    ~ doc_urls st ⊆ queued_urls st.
Proof.
  exists [EvPut home 1; EvGet home 1; EvLink home 1 docs_a],
         (mk_state {[docs_a]} {[home]} {[home]} [] [None]).
  split.
  { apply (replay_run 1 absolute_netloc join_unused home 1 one_link
             [EvPut home 1] (init home 1)); [apply run_init|].
    vm_compute. reflexivity. }
  split; [split; [reflexivity | repeat constructor]|].
  split; [reflexivity|]. split; [reflexivity|]. simpl.
  intros Hsub. assert (Hin : docs_a ∈ ({[home]} : gset string)) by set_solver.
  apply elem_of_singleton in Hin. discriminate Hin.
Qed.

(** C5, amended: at every point of an extraction the visited URLs are a
    subset of the queued ones, no URL is put in the queued set twice (cycles
    and repeated links included), the queued set holds the URLs put and no
    others, and every documentation URL is queued or was found on a page
    crawled at a depth not below [max_depth]. *)
Theorem frontier_sets_invariant
    (max_depth : Z) (urlparse_netloc : string -> option string)
    (urljoin : string -> string -> option string)
    (base_url : string) (concurrency : nat) (tr : list event) (st : state) :
  run max_depth urlparse_netloc urljoin base_url concurrency tr st ->
  visited_urls st ⊆ queued_urls st /\
  NoDup (puts tr) /\
  (forall u, u ∈ puts tr <-> u ∈ queued_urls st) /\
  (forall u, u ∈ doc_urls st ->
     u ∈ queued_urls st \/ saw_link_at_limit max_depth tr u).
Proof.
  intros Hrun. pose proof (run_inv _ _ _ _ _ _ _ Hrun) as Hinv.
  split; [exact (inv_visited _ _ _ Hinv)|].
  split; [exact (inv_puts_nodup _ _ _ Hinv)|].
  split; [exact (inv_puts _ _ _ Hinv) | exact (inv_docs_queued _ _ _ Hinv)].
Qed.

Lemma frontier_sets_invariant_cyclic_site :
  visited_urls cyclic_final ⊆ queued_urls cyclic_final /\
  NoDup (puts cyclic_trace) /\
  (forall u, u ∈ puts cyclic_trace <-> u ∈ queued_urls cyclic_final) /\
  (forall u, u ∈ doc_urls cyclic_final ->
     u ∈ queued_urls cyclic_final \/ saw_link_at_limit 3 cyclic_trace u).
Proof.
  apply (frontier_sets_invariant 3 absolute_netloc join_unused home 2
           cyclic_trace cyclic_final cyclic_site_run).
Defined.

(** The extraction on the cyclic site is over, and each URL was put in the
    queued set once. *)
Example cyclic_site_finished : finished cyclic_final.
Proof. split; [reflexivity | repeat constructor]. Qed.

(** The URLs put in the queued set on the cyclic site, in order. *)
Example cyclic_site_puts : puts cyclic_trace = [home; docs_a; about; docs_b].
Proof. reflexivity. Qed.

End FrontierProperties.

(** ** Where the chunks lie in the text *)

Module SpanFacts.
Import PyStr Chunker ChunkSpec Spans PyStrFacts BoundaryFacts ChunkFacts.
Local Open Scope Z_scope.

(** The loop builds the chunks of the spans. *)
Lemma split_loop_spans fuel : forall text chunk_size overlap start,
  split_loop fuel text chunk_size overlap start [] =
  option_map (map (span_chunk text)) (loop_spans fuel text chunk_size overlap start).
Proof.
  induction fuel as [|fuel IH]; intros text cs ov s; simpl; [reflexivity|].
  destruct (s <? len text); [|reflexivity].
  destruct (_ >=? _); [reflexivity|].
  rewrite split_loop_acc, IH.
  destruct (loop_spans fuel text cs ov _); reflexivity.
Qed.

Lemma slice_whole text : slice text 0 (len text) = text.
Proof.
  pose proof (len_nonneg text). rewrite slice_inside by lia.
  simpl. apply firstn_all2. unfold len. lia.
Qed.

Lemma split_text_spans text chunk_size overlap :
  split_text text chunk_size overlap =
  option_map (map (span_chunk text)) (text_spans text chunk_size overlap).
Proof.
  unfold split_text, text_spans. destruct text as [|c text]; [reflexivity|].
  destruct (_ <=? _).
  - simpl. unfold span_chunk. simpl fst. simpl snd. by rewrite slice_whole.
  - apply split_loop_spans.
Qed.

(** [_split_text] cuts every text somewhere. *)
Lemma text_spans_total text chunk_size overlap :
  exists spans, text_spans text chunk_size overlap = Some spans.
Proof.
  destruct (split_text_total text chunk_size overlap) as (chunks & Hs & _).
  rewrite split_text_spans in Hs.
  destruct (text_spans text chunk_size overlap) as [spans|]; [eauto | discriminate].
Qed.

(** No search reaches further than half a chunk size past the candidate. *)
Lemma chunk_end_upper text chunk_size start :
  0 <= start -> 0 <= chunk_size ->
  chunk_end text chunk_size start <= start + chunk_size + chunk_size / 2.
Proof.
  intros Hs Hc.
  destruct (Z.lt_ge_cases (start + chunk_size) (len text)) as [Hlt | Hge].
  - destruct (chunk_end_boundary text chunk_size start Hs Hc Hlt)
      as [p (_ & H1 & _) | p _ (_ & H1 & _) | p _ _ (_ & H1 & _) | _ _ _];
      rewrite ?paragraph_sep_len, ?sentence_sep_len, ?space_sep_len in *;
      Z.div_mod_to_equations; lia.
  - rewrite chunk_end_past by assumption. Z.div_mod_to_equations; lia.
Qed.

(** With a positive chunk size every round cuts a chunk that is not empty. *)
Lemma chunk_end_after_start text chunk_size start :
  0 <= start -> start < len text -> 1 <= chunk_size ->
  start < chunk_end text chunk_size start.
Proof.
  intros Hs HL Hc.
  destruct (Z.lt_ge_cases (start + chunk_size) (len text)) as [Hlt | Hge].
  - pose proof (chunk_end_lower text chunk_size start Hs ltac:(lia) Hlt).
    Z.div_mod_to_equations; lia.
  - rewrite chunk_end_past by assumption. exact HL.
Qed.

(** The spans of the loop: well cut, further and further right, the first
    one at the start of the loop. *)
Lemma loop_spans_shape fuel : forall text chunk_size overlap start spans,
  0 <= start -> 1 <= chunk_size ->
  loop_spans fuel text chunk_size overlap start = Some spans ->
  Forall (well_cut text chunk_size) spans /\
  starts_increase spans /\
  (start < len text -> exists e rest, spans = (start, e) :: rest).
Proof.
  induction fuel as [|fuel IH]; intros text cs ov s spans Hs Hc Hrun;
    simpl in Hrun; [discriminate|].
  destruct (Z.ltb_spec s (len text)) as [HL|HL].
  2:{ injection Hrun as <-. split; [constructor|]. split; [exact I | lia]. }
  assert (Hcut : well_cut text cs (s, chunk_end text cs s)).
  { unfold well_cut. simpl.
    pose proof (chunk_end_after_start text cs s Hs HL Hc).
    pose proof (chunk_end_le_len text cs s).
    pose proof (chunk_end_upper text cs s Hs ltac:(lia)). lia. }
  pose proof (next_start_advances s (chunk_end text cs s) ov) as Hadv.
  destruct (Z.geb_spec (next_start s (chunk_end text cs s) ov) (len text)) as [Hge|Hlt].
  - injection Hrun as <-. split; [by constructor|]. split; [exact I | eauto].
  - destruct (loop_spans fuel text cs ov _) as [rest|] eqn:Hrest; [|discriminate].
    injection Hrun as <-.
    destruct (IH text cs ov (next_start s (chunk_end text cs s) ov) rest
                ltac:(lia) Hc Hrest) as (Hall & Hinc & Hhead).
    destruct (Hhead Hlt) as (e' & rest' & ->).
    split; [by constructor|]. split; [|eauto].
    simpl. split; [exact Hadv | exact Hinc].
Qed.


Lemma well_cut_whole (text : list ascii) chunk_size :
  text <> [] -> len text <= chunk_size -> well_cut text chunk_size (0, len text).
Proof.
  intros Hne Hle. unfold well_cut. simpl.
  assert (1 <= len text) by (destruct text; [done | unfold len; simpl; lia]).
  Z.div_mod_to_equations; lia.
Qed.

(** The spans of [_split_text], for a positive chunk size. *)
Lemma text_spans_shape text chunk_size overlap spans :
  1 <= chunk_size ->
  text_spans text chunk_size overlap = Some spans ->
  Forall (well_cut text chunk_size) spans /\
  starts_increase spans /\
  (text <> [] -> exists e rest, spans = (0, e) :: rest).
Proof.
  intros Hc Hrun. unfold text_spans in Hrun.
  destruct text as [|c t] eqn:Etext.
  { injection Hrun as <-. split; [constructor|]. split; [exact I | done]. }
  rewrite <- Etext in *.
  assert (Hne : text <> []) by (rewrite Etext; done).
  destruct (Z.leb_spec (len text) chunk_size) as [Hle|Hgt].
  - injection Hrun as <-. split.
    + constructor; [by apply well_cut_whole | constructor].
    + split; [exact I | eauto].
  - destruct (loop_spans_shape _ _ _ _ 0 _ ltac:(lia) Hc Hrun)
      as (Hall & Hinc & Hhead).
    split; [exact Hall|]. split; [exact Hinc|]. intros _.
    apply Hhead. unfold len. rewrite Etext. simpl. lia.
Qed.


Lemma well_cut_chunk text chunk_size span :
  well_cut text chunk_size span ->
  1 <= len (span_chunk text span) <= chunk_size + chunk_size / 2.
Proof.
  intros (H0 & H1 & H2 & H3). unfold span_chunk.
  rewrite slice_length by lia. lia.
Qed.



End SpanFacts.

(** ** The document and the chunk list *)

Module BuilderFacts.
Import PyStr Chunker ChunkSpec Fetch Builder Spans BuilderTerms.
Import PyStrFacts ChunkFacts SpanFacts.
Local Open Scope Z_scope.

Lemma str_app_cons x (a b : string) :
  (String x a ++ b)%string = String x (a ++ b)%string.
Proof. reflexivity. Qed.

Lemma str_app_assoc (a b c : string) : ((a ++ b) ++ c = a ++ (b ++ c))%string.
Proof.
  induction a as [|x a IH]; [reflexivity|].
  rewrite !str_app_cons. f_equal. exact IH.
Qed.

Lemma str_app_nil_r (a : string) : (a ++ "" = a)%string.
Proof.
  induction a as [|x a IH]; [reflexivity|].
  rewrite str_app_cons. f_equal. exact IH.
Qed.

Lemma str_app_empty (a b : string) : (a ++ b)%string = ""%string -> a = ""%string.
Proof. destruct a; [reflexivity | discriminate]. Qed.

Lemma join_cons sep x (l : list string) :
  l <> [] -> String.concat sep (x :: l) = (x ++ sep ++ String.concat sep l)%string.
Proof. destruct l; [done | reflexivity]. Qed.

Lemma join_app sep (l1 l2 : list string) :
  l1 <> [] -> l2 <> [] ->
  String.concat sep (l1 ++ l2) =
  (String.concat sep l1 ++ sep ++ String.concat sep l2)%string.
Proof.
  intros H1 H2. induction l1 as [|x l1 IH]; [done|].
  destruct l1 as [|y l1].
  - simpl app. by rewrite join_cons.
  - change ((x :: y :: l1) ++ l2) with (x :: ((y :: l1) ++ l2)).
    rewrite join_cons by done. rewrite IH by done.
    rewrite (join_cons sep x (y :: l1)) by done.
    by rewrite !str_app_assoc.
Qed.

(** The loop of [create_combined_document] keeps the sections of the
    results that have markdown, in order. *)
Lemma collect_sections_spec results : forall content_sections total,
  fst (collect_sections results content_sections total) =
  content_sections ++ map section_of (List.filter has_markdown results).
Proof.
  induction results as [|r results IH]; intros acc total; simpl.
  - by rewrite app_nil_r.
  - destruct (has_markdown r); rewrite IH; [|reflexivity].
    simpl. by rewrite <- app_assoc.
Qed.

Lemma document_spec results :
  document results =
  String.concat section_separator
    (map section_of (List.filter has_markdown results)).
Proof.
  unfold document, create_combined_document.
  pose proof (collect_sections_spec results [] 0) as H.
  destruct (collect_sections results [] 0) as [sections total].
  simpl in *. by rewrite H.
Qed.

Lemma create_combined_document_spec writable results output_file :
  create_combined_document writable results output_file =
  (document results, writable output_file).
Proof.
  unfold document, create_combined_document.
  destruct (collect_sections results [] 0). reflexivity.
Qed.

Lemma sections_nil results :
  map section_of (List.filter has_markdown results) = [] <->
  existsb has_markdown results = false.
Proof.
  induction results as [|r results IH]; simpl; [done|].
  destruct (has_markdown r); simpl; [split; discriminate | exact IH].
Qed.

Lemma part_of_join sep (l : list string) x :
  In x l -> part_of x (String.concat sep l).
Proof.
  induction l as [|y l IH]; [done|]. intros [-> | Hin].
  - destruct l as [|z l].
    + exists ""%string, ""%string. simpl. by rewrite str_app_nil_r.
    + exists ""%string, (sep ++ String.concat sep (z :: l))%string.
      by rewrite join_cons.
  - destruct l as [|z l]; [done|].
    destruct (IH Hin) as (before & after & Heq).
    exists (y ++ sep ++ before)%string, after.
    rewrite join_cons by done. rewrite Heq. by rewrite !str_app_assoc.
Qed.

(** The loop of [create_chunks] never runs out of fuel, and appends the
    chunk records of the pages in order. *)
Lemma chunk_results_spec results chunk_size overlap : forall chunks,
  chunk_results results chunk_size overlap chunks =
  Some (chunks ++ flat_map (page_chunks chunk_size overlap) results).
Proof.
  induction results as [|r results IH]; intros acc; simpl.
  - by rewrite app_nil_r.
  - unfold page_chunks, eligible.
    destruct (has_markdown r); simpl; [|apply IH].
    destruct (blank (str (markdown_of r))); simpl; [apply IH|].
    destruct (split_text_total (str (markdown_of r)) chunk_size overlap)
      as (cc & Hcc & _).
    rewrite Hcc, IH. by rewrite <- app_assoc.
Qed.

Lemma create_chunks_spec writable results chunk_size overlap output_file :
  create_chunks writable results chunk_size overlap output_file =
  Some (flat_map (page_chunks chunk_size overlap) results, writable output_file).
Proof. unfold create_chunks. by rewrite chunk_results_spec. Qed.

(** A text that is not blank is not empty. *)
Lemma not_blank_nonempty (content : list ascii) :
  blank content = false -> content <> [].
Proof. by destruct content. Qed.

(** The chunk records of an eligible page: its chunks, tagged. *)
Lemma page_chunks_eligible chunk_size overlap r :
  eligible r = true ->
  exists content_chunks,
    split_text (str (markdown_of r)) chunk_size overlap = Some content_chunks /\
    content_chunks <> [] /\
    page_chunks chunk_size overlap r = map (chunk_of (result_url r)) content_chunks.
Proof.
  intros He. unfold page_chunks. rewrite He.
  destruct (split_text_total (str (markdown_of r)) chunk_size overlap)
    as (cc & Hcc & Hne & _).
  exists cc. rewrite Hcc. split; [reflexivity|]. split; [|reflexivity].
  apply Hne. apply not_blank_nonempty.
  unfold eligible in He. apply andb_true_iff in He as [_ He].
  by apply negb_true_iff in He.
Qed.

Lemma page_chunks_not_eligible chunk_size overlap r :
  eligible r = false -> page_chunks chunk_size overlap r = [].
Proof. intros He. unfold page_chunks. by rewrite He. Qed.

(** A well cut span is an occurrence of its chunk. *)
Lemma well_cut_occurs text chunk_size span :
  well_cut text chunk_size span ->
  occurs_at (span_chunk text span) text (fst span).
Proof.
  intros (H0 & H1 & H2 & H3). unfold occurs_at.
  assert (Hlen : len (span_chunk text span) = snd span - fst span)
    by (unfold span_chunk; apply slice_length; lia).
  split; [exact H0|]. split; [lia|].
  unfold span_chunk in *. rewrite slice_inside by lia.
  rewrite slice_inside in Hlen by lia. unfold len in Hlen.
  f_equal. lia.
Qed.

(** The chunk records of a page, for a positive chunk size: its well cut
    spans, tagged. *)
Lemma page_chunks_spans chunk_size overlap r :
  1 <= chunk_size -> eligible r = true ->
  exists spans,
    Forall (well_cut (str (markdown_of r)) chunk_size) spans /\
    page_chunks chunk_size overlap r =
    map (fun span => chunk_of (result_url r)
                       (span_chunk (str (markdown_of r)) span)) spans.
Proof.
  intros Hc He.
  destruct (page_chunks_eligible chunk_size overlap r He) as (cc & Hcc & _ & Hpc).
  destruct (text_spans_total (str (markdown_of r)) chunk_size overlap) as [spans Hs].
  destruct (text_spans_shape _ _ _ _ Hc Hs) as (Hall & _).
  exists spans. split; [exact Hall|].
  rewrite split_text_spans, Hs in Hcc. injection Hcc as <-.
  rewrite Hpc. by rewrite map_map.
Qed.

(** The chunk list is the pages' chunk records, one run per eligible page. *)
Lemma flat_map_eligible chunk_size overlap results :
  flat_map (page_chunks chunk_size overlap) results =
  concat (map (page_chunks chunk_size overlap) (List.filter eligible results)).
Proof.
  induction results as [|r results IH]; [reflexivity|]. simpl.
  destruct (eligible r) eqn:He; simpl.
  - by rewrite IH.
  - by rewrite page_chunks_not_eligible.
Qed.

(** What every record of the chunk list is. *)
Lemma chunk_records_spec results chunk_size overlap :
  1 <= chunk_size ->
  Forall (fun c =>
    chunk_length c = len (chunk_content c) /\
    1 <= chunk_length c <= chunk_size + chunk_size / 2 /\
    exists result p,
      In result results /\ has_markdown result = true /\
      chunk_url c = result_url result /\
      occurs_at (chunk_content c) (str (markdown_of result)) p)
    (flat_map (page_chunks chunk_size overlap) results).
Proof.
  intros Hc. apply List.Forall_forall. intros c Hin.
  apply in_flat_map in Hin as (r & Hr & Hin).
  destruct (eligible r) eqn:He;
    [|rewrite page_chunks_not_eligible in Hin by assumption; destruct Hin].
  destruct (page_chunks_spans chunk_size overlap r Hc He) as (spans & Hall & Hpc).
  rewrite Hpc in Hin. apply in_map_iff in Hin as (span & <- & Hspan).
  pose proof (proj1 (List.Forall_forall _ _) Hall span Hspan) as Hcut.
  simpl. split; [reflexivity|]. split; [by apply well_cut_chunk|].
  exists r, (fst span). split; [exact Hr|].
  split; [unfold eligible in He; by apply andb_true_iff in He as [? _]|].
  split; [reflexivity|]. by eapply well_cut_occurs.
Qed.

End BuilderFacts.

(** ** The accounts of the frontier *)

Module FrontierAccounts.
Import Frontier FrontierTerms FrontierFacts.
Local Open Scope Z_scope.
#[local] Set Warnings "-clear-no-such-hyp".

Lemma gets_app tr1 tr2 : gets (tr1 ++ tr2) = gets tr1 ++ gets tr2.
Proof. apply omap_app. Qed.

(** A worker that takes a job joins the busy ones. *)
Lemma busy_urls_take ws : forall i u d,
  ws !! i = Some None ->
  busy_urls (<[i := Some (u, d)]> ws) ≡ₚ u :: busy_urls ws.
Proof.
  induction ws as [|w ws IH]; intros [|i] u d Hi; simpl in Hi; try discriminate.
  - injection Hi as ->. reflexivity.
  - simpl. unfold busy_urls in *. simpl. destruct w as [[u' d']|]; simpl.
    + rewrite (IH i u d Hi). apply Permutation_swap.
    + exact (IH i u d Hi).
Qed.

(** A worker that finishes its page leaves the busy ones. *)
Lemma busy_urls_release ws : forall i u d,
  ws !! i = Some (Some (u, d)) ->
  busy_urls ws ≡ₚ u :: busy_urls (<[i := None]> ws).
Proof.
  induction ws as [|w ws IH]; intros [|i] u d Hi; simpl in Hi; try discriminate.
  - injection Hi as ->. reflexivity.
  - simpl. unfold busy_urls in *. simpl. destruct w as [[u' d']|]; simpl.
    + rewrite (IH i u d Hi). apply Permutation_swap.
    + exact (IH i u d Hi).
Qed.

Lemma busy_urls_elem ws u :
  u ∈ busy_urls ws <-> exists d, Some (u, d) ∈ ws.
Proof.
  unfold busy_urls. rewrite list_elem_of_omap. split.
  - intros ([[u' d]|] & Hin & Heq); [|discriminate].
    injection Heq as ->. eauto.
  - intros [d Hin]. exists (Some (u, d)). auto.
Qed.

Section Effects.

Variable max_depth : Z.
Variable urlparse_netloc : string -> option string.
Variable urljoin : string -> string -> option string.

Lemma process_link_effect url depth link st st' evs :
  process_link max_depth urlparse_netloc urljoin url depth link st = Some (st', evs) ->
  loop_effect max_depth depth st st' evs.
Proof.
  unfold process_link, loop_effect. intros Hstep.
  destruct (String.eqb link "").
  { injection Hstep as <- <-. simpl. rewrite app_nil_r.
    repeat split; try done. set_solver. }
  destruct (normalize urlparse_netloc urljoin url link) as [l|]; [|discriminate].
  assert (Hdocs : doc_urls st ⊆
                  (if is_doc l then {[l]} ∪ doc_urls st else doc_urls st))
    by (destruct (is_doc l); set_solver).
  destruct (Z.ltb_spec depth max_depth) as [Hlt|Hge]; simpl in Hstep.
  - destruct (negb (bool_decide (l ∈ visited_urls st))
              && negb (bool_decide (l ∈ queued_urls st)));
      injection Hstep as <- <-; simpl.
    + repeat split; try done. set_solver.
    + rewrite app_nil_r. repeat split; try done. set_solver.
  - injection Hstep as <- <-; simpl. rewrite app_nil_r.
    repeat split; try done. set_solver.
Qed.

Lemma process_links_effect url depth links : forall st st' evs,
  process_links max_depth urlparse_netloc urljoin url depth links st = (st', evs) ->
  loop_effect max_depth depth st st' evs.
Proof.
  induction links as [|link links IH]; intros st st' evs Hrun; simpl in Hrun.
  { injection Hrun as <- <-. unfold loop_effect. simpl. rewrite app_nil_r.
    repeat split; try done. set_solver. }
  destruct (process_link _ _ _ url depth link st) as [[st1 evs1]|] eqn:Hone.
  2:{ injection Hrun as <- <-. unfold loop_effect. simpl. rewrite app_nil_r.
      repeat split; try done. set_solver. }
  destruct (process_links _ _ _ url depth links st1) as [st2 evs2] eqn:Hrest.
  injection Hrun as <- <-.
  destruct (process_link_effect _ _ _ _ _ _ Hone)
    as (Hv1 & Hw1 & Hg1 & Hq1 & Hs1 & Hd1 & Hp1).
  destruct (IH _ _ _ Hrest) as (Hv2 & Hw2 & Hg2 & Hq2 & Hs2 & Hd2 & Hp2).
  unfold loop_effect. rewrite gets_app, puts_app, Hg1, Hg2.
  rewrite Hv2, Hv1, Hw2, Hw1, Hq2, Hq1, Hs2, Hs1.
  rewrite map_app, app_assoc, list_to_set_app_L.
  repeat split; try done.
  - set_solver.
  - set_solver.
  - intros Hne. destruct (puts evs1) eqn:E1; [|apply Hp1; done].
    apply Hp2. by simpl in Hne.
Qed.

Lemma busy_urls_idle n : busy_urls (replicate n None) = [].
Proof. induction n as [|n IH]; [reflexivity|]. exact IH. Qed.

Lemma queue_urls_app q l d :
  queue_urls (q ++ map (fun u : string => (u, d)) l) = queue_urls q ++ l.
Proof.
  unfold queue_urls. rewrite map_app, map_map. simpl. by rewrite map_id.
Qed.

Lemma init_accounts base_url concurrency :
  accounts max_depth base_url concurrency [EvPut base_url 1]
    (init base_url concurrency).
Proof.
  constructor; simpl.
  - apply length_replicate.
  - rewrite busy_urls_idle. constructor.
  - intros u Hu. right. set_solver.
  - reflexivity.
  - intros u. set_solver.
  - done.
Qed.

Lemma worker_get_accounts base_url concurrency i tr st st' evs :
  inv max_depth tr st -> accounts max_depth base_url concurrency tr st ->
  worker_get i st = Some (st', evs) ->
  accounts max_depth base_url concurrency (tr ++ evs) st'.
Proof.
  intros Hinv [Hpool Hbusy Hwait Hjobs Hvis Hshallow] Hstep.
  unfold worker_get in Hstep.
  destruct (workers st !! i) as [[|]|] eqn:Hwi; try discriminate.
  destruct (queue st) as [|[url depth] q] eqn:Hqueue; [discriminate|].
  assert (Hp : puts (tr ++ [EvGet url depth]) = puts tr)
    by (rewrite puts_app; apply app_nil_r).
  assert (Hg : gets (tr ++ [EvGet url depth]) = gets tr ++ [url])
    by (by rewrite gets_app).
  destruct (bool_decide_reflect (url ∈ visited_urls st)) as [Hv|Hv];
    injection Hstep as <- <-; constructor; simpl; rewrite ?Hp, ?Hg; try done.
  - intros u Hu. destruct (Hwait u Hu) as [?|Hq]; [by left|].
    simpl in Hq. apply elem_of_cons in Hq as [->|Hq]; auto.
  - rewrite length_app. simpl in *. lia.
  - intros u. rewrite elem_of_app, list_elem_of_singleton, <- Hvis.
    split; [auto | intros [?| ->]; auto].
  - by rewrite length_insert.
  - rewrite (busy_urls_take _ i url depth Hwi). constructor; [|exact Hbusy].
    intros Hin. apply busy_urls_elem in Hin as [d Hin].
    apply Hv. by apply (inv_workers _ _ _ Hinv url d).
  - intros u Hu. destruct (Hwait u Hu) as [?|Hq]; [left; set_solver|].
    simpl in Hq. apply elem_of_cons in Hq as [->|Hq]; [left; set_solver | by right].
  - rewrite length_app. simpl in *. lia.
  - intros u. rewrite elem_of_app, list_elem_of_singleton, <- Hvis. set_solver.
Qed.

Lemma worker_resume_accounts base_url concurrency i links tr st st' evs :
  inv max_depth tr st -> accounts max_depth base_url concurrency tr st ->
  worker_resume max_depth urlparse_netloc urljoin i links st = Some (st', evs) ->
  accounts max_depth base_url concurrency (tr ++ evs) st'.
Proof.
  intros Hinv [Hpool Hbusy Hwait Hjobs Hvis Hshallow] Hstep.
  unfold worker_resume in Hstep.
  destruct (workers st !! i) as [[[url depth]|]|] eqn:Hwi; try discriminate.
  injection Hstep as Hstep.
  destruct (process_links_effect _ _ _ _ _ _ Hstep)
    as (Hv & Hw & Hg & Hq & Hs & _ & Hp).
  simpl in Hv, Hw, Hq, Hs.
  assert (Hdepth : 1 <= depth).
  { apply (inv_workers _ _ _ Hinv url depth). by eapply list_elem_of_lookup_2. }
  constructor; rewrite ?Hv, ?Hw, ?Hq, ?Hs, ?gets_app, ?puts_app, ?Hg, ?app_nil_r.
  - by rewrite length_insert.
  - pose proof (busy_urls_release _ i url depth Hwi) as Hperm.
    rewrite Hperm in Hbusy. by apply NoDup_cons in Hbusy as [_ ?].
  - intros u Hu. rewrite queue_urls_app.
    apply elem_of_union in Hu as [Hu|Hu].
    + destruct (Hwait u Hu); [by left | right; set_solver].
    + right. apply elem_of_list_to_set in Hu. set_solver.
  - rewrite !length_app, length_map. lia.
  - exact Hvis.
  - intros Hmax. destruct (Hshallow Hmax) as [Hqd Hputs].
    destruct (puts evs) eqn:Hpe; [|exfalso; specialize (Hp ltac:(done)); lia].
    simpl. rewrite app_nil_r. split; [set_solver | exact Hputs].
Qed.

Lemma run_accounts base_url concurrency tr st :
  run max_depth urlparse_netloc urljoin base_url concurrency tr st ->
  accounts max_depth base_url concurrency tr st.
Proof.
  induction 1 as [|tr st a st' evs Hrun IH Hstep].
  - apply init_accounts.
  - pose proof (run_inv _ _ _ _ _ _ _ Hrun) as Hinv.
    destruct a as [i | i links]; simpl in Hstep.
    + by eapply worker_get_accounts.
    + by eapply worker_resume_accounts.
Qed.

(** Every step adds one to twice the jobs taken less the busy workers. *)
Lemma perform_measure a tr st st' evs :
  perform max_depth urlparse_netloc urljoin a st = Some (st', evs) ->
  (1 + 2 * length (gets tr) + length (busy_urls (workers st'))
   <= 2 * length (gets (tr ++ evs)) + length (busy_urls (workers st)))%nat.
Proof.
  intros Hstep. rewrite gets_app, length_app.
  destruct a as [i | i links]; simpl in Hstep.
  - unfold worker_get in Hstep.
    destruct (workers st !! i) as [[|]|] eqn:Hwi; try discriminate.
    destruct (queue st) as [|[url depth] q]; [discriminate|].
    destruct (bool_decide (url ∈ visited_urls st));
      injection Hstep as <- <-; simpl.
    + lia.
    + rewrite (busy_urls_take _ i url depth Hwi). simpl. lia.
  - unfold worker_resume in Hstep.
    destruct (workers st !! i) as [[[url depth]|]|] eqn:Hwi; try discriminate.
    injection Hstep as Hstep.
    destruct (process_links_effect _ _ _ _ _ _ Hstep) as (_ & Hw & Hg & _).
    simpl in Hw. rewrite Hw, Hg.
    rewrite (busy_urls_release _ i url depth Hwi). simpl. lia.
Qed.

Lemma replay_measure acts : forall tr st tr' st',
  replay max_depth urlparse_netloc urljoin acts tr st = Some (tr', st') ->
  (length acts + 2 * length (gets tr) + length (busy_urls (workers st'))
   <= 2 * length (gets tr') + length (busy_urls (workers st)))%nat.
Proof.
  induction acts as [|a acts IH]; intros tr st tr' st' Hre; simpl in Hre.
  - injection Hre as <- <-. simpl. lia.
  - destruct (perform _ _ _ a st) as [[st1 evs]|] eqn:Hp; [|discriminate].
    pose proof (perform_measure a tr st st1 evs Hp).
    pose proof (IH _ _ _ _ Hre). simpl. lia.
Qed.

(** The three sets never lose a URL. *)
Lemma perform_grows a st st' evs :
  perform max_depth urlparse_netloc urljoin a st = Some (st', evs) ->
  doc_urls st ⊆ doc_urls st' /\ visited_urls st ⊆ visited_urls st' /\
  queued_urls st ⊆ queued_urls st'.
Proof.
  intros Hstep. destruct a as [i | i links]; simpl in Hstep.
  - unfold worker_get in Hstep.
    destruct (workers st !! i) as [[|]|]; try discriminate.
    destruct (queue st) as [|[url depth] q]; [discriminate|].
    destruct (bool_decide (url ∈ visited_urls st));
      injection Hstep as <- <-; simpl; set_solver.
  - unfold worker_resume in Hstep.
    destruct (workers st !! i) as [[[url depth]|]|]; try discriminate.
    injection Hstep as Hstep.
    destruct (process_links_effect _ _ _ _ _ _ Hstep) as (Hv & _ & _ & _ & Hs & Hd & _).
    simpl in *. rewrite Hv, Hs. set_solver.
Qed.

End Effects.

End FrontierAccounts.

(** ** Further properties of [_split_text] *)

Module ChunkerExtras.
Import PyStr Chunker ChunkSpec Spans Samples.
Import PyStrFacts ChunkFacts SpanFacts.
Local Open Scope Z_scope.

(** X1: with a chunk size of at least 1, whatever the overlap, every chunk
    [_split_text] returns is non-empty and at most
    [chunk_size + chunk_size // 2] characters long. *)
Theorem split_text_chunk_sizes (text : list ascii) (chunk_size overlap : Z) :
  1 <= chunk_size ->
  exists chunks,
    split_text text chunk_size overlap = Some chunks /\
    Forall (fun c => 1 <= len c <= chunk_size + chunk_size / 2) chunks.
Proof.
  intros Hc. destruct (text_spans_total text chunk_size overlap) as [spans Hs].
  destruct (text_spans_shape text chunk_size overlap spans Hc Hs) as (Hall & _).
  exists (map (span_chunk text) spans).
  split; [by rewrite split_text_spans, Hs|].
  apply Forall_map. eapply Forall_impl; [exact Hall|].
  intros span. apply well_cut_chunk.
Qed.

Lemma split_text_chunk_sizes_prose :
  exists chunks,
    split_text prose 10 50 = Some chunks /\
    Forall (fun c => 1 <= len c <= 10 + 10 / 2) chunks.
Proof. apply (split_text_chunk_sizes prose 10 50). lia. Defined.

(** X2: with a chunk size of at least 1, the chunks are pieces
    [text[s:e]] of the text with [0 <= s < e <= len(text)], listed by
    strictly increasing start, and the first piece of a non-empty text starts
    at 0. *)
Theorem split_text_document_order (text : list ascii) (chunk_size overlap : Z) :
  1 <= chunk_size ->
  exists spans,
    split_text text chunk_size overlap = Some (map (span_chunk text) spans) /\
    Forall (fun span => 0 <= fst span < snd span /\ snd span <= len text) spans /\
    starts_increase spans /\
    (text <> [] -> exists e rest, spans = (0, e) :: rest).
Proof.
  intros Hc. destruct (text_spans_total text chunk_size overlap) as [spans Hs].
  destruct (text_spans_shape text chunk_size overlap spans Hc Hs)
    as (Hall & Hinc & Hhead).
  exists spans. split; [by rewrite split_text_spans, Hs|].
  split; [|by split].
  eapply Forall_impl; [exact Hall|]. intros span (H0 & H1 & H2 & _). lia.
Qed.

Lemma split_text_document_order_prose :
  exists spans,
    split_text prose 10 3 = Some (map (span_chunk prose) spans) /\
    Forall (fun span => 0 <= fst span < snd span /\ snd span <= len prose) spans /\
    starts_increase spans /\
    (prose <> [] -> exists e rest, spans = (0, e) :: rest).
Proof. apply (split_text_document_order prose 10 3). lia. Defined.

(** The cuts of the sample prose with chunk size 10 and overlap 3. *)
Example text_spans_prose :
  text_spans prose 10 3 =
  Some [(0, 10); (7, 17); (14, 24); (21, 31); (28, 38); (35, 42);
        (39, 42); (40, 42); (41, 42)].
Proof. reflexivity. Qed.





(** A negative overlap does leave gaps: with chunk size 4 and overlap -2
    the letters at 4, 5, 10 and 11 are in no chunk. *)
Example negative_overlap_skips_text :
  split_text twelve_letters 4 (-2) = Some (map str ["abcd"; "ghij"]%string).
Proof. reflexivity. Qed.

End ChunkerExtras.

(** ** Properties of [create_combined_document] and [create_chunks] *)

Module BuilderExtras.
Import PyStr Chunker ChunkSpec Fetch Builder Spans BuilderTerms Samples.
Import PyStrFacts ChunkFacts SpanFacts BuilderFacts.
Local Open Scope Z_scope.

(** X4: the combined document of two result lists put end to end is the two
    documents joined by the separator when both lists have a page with
    markdown, and the document of the one list when the other list has none:
    failed results and results without markdown leave no trace. *)
Theorem combined_document_app (writable : string -> bool)
    (results1 results2 : list fetch_result) (output_file : string) :
  let doc results := fst (create_combined_document writable results output_file) in
  (existsb has_markdown results1 = true ->
   existsb has_markdown results2 = true ->
   doc (results1 ++ results2) =
   (doc results1 ++ section_separator ++ doc results2)%string) /\
  (existsb has_markdown results2 = false ->
   doc (results1 ++ results2) = doc results1) /\
  (existsb has_markdown results1 = false ->
   doc (results1 ++ results2) = doc results2).
Proof.
  cbv beta zeta. rewrite !create_combined_document_spec. simpl.
  rewrite !document_spec, List.filter_app, map_app.
  split; [|split].
  - intros H1 H2. apply join_app.
    + intros Hnil. apply sections_nil in Hnil. congruence.
    + intros Hnil. apply sections_nil in Hnil. congruence.
  - intros H2. apply sections_nil in H2. rewrite H2. by rewrite app_nil_r.
  - intros H1. apply sections_nil in H1. by rewrite H1.
Qed.

(** X5: every result that is a success with non-empty markdown has its
    section, the header line with its URL followed by its markdown, as a part
    of the combined document. *)
Theorem combined_document_has_page (writable : string -> bool)
    (results : list fetch_result) (output_file : string)
    (result : fetch_result) :
  In result results -> has_markdown result = true ->
  part_of (section_prefix ++ result_url result ++ nl ++ nl ++ markdown_of result)
          (fst (create_combined_document writable results output_file)).
Proof.
  intros Hin Hmd. rewrite create_combined_document_spec. simpl.
  rewrite document_spec. apply part_of_join.
  apply (in_map section_of). apply filter_In. by split.
Qed.

Lemma combined_document_has_page_mixed :
  part_of (section_prefix ++ docs_a ++ nl ++ nl ++ "Install the tool. Then run it.")
          (fst (create_combined_document (fun _ => false) mixed_results "out.txt")).
Proof.
  apply (combined_document_has_page (fun _ => false) mixed_results "out.txt"
           (Fetched docs_a "Install the tool. Then run it." "" "")).
  - left. reflexivity.
  - reflexivity.
Defined.

(** X6: the combined document is the empty string exactly when no result is
    a success with non-empty markdown (the empty result list included). *)
Theorem combined_document_empty_iff (writable : string -> bool)
    (results : list fetch_result) (output_file : string) :
  fst (create_combined_document writable results output_file) = ""%string <->
  forall result, In result results -> has_markdown result = false.
Proof.
  rewrite create_combined_document_spec. simpl. rewrite document_spec.
  split.
  - intros Hdoc r Hin. destruct (has_markdown r) eqn:Hmd; [|reflexivity].
    exfalso.
    assert (Hs : In (section_of r) (map section_of (List.filter has_markdown results)))
      by (apply in_map, filter_In; by split).
    destruct (part_of_join section_separator _ _ Hs) as (before & after & Heq).
    rewrite Hdoc in Heq. symmetry in Heq.
    destruct before; [|discriminate]. discriminate Heq.
  - intros Hnone.
    assert (Hex : existsb has_markdown results = false).
    { destruct (existsb has_markdown results) eqn:Hex; [|reflexivity].
      apply existsb_exists in Hex as (r & Hin & Hmd).
      rewrite (Hnone r Hin) in Hmd. discriminate. }
    apply sections_nil in Hex. by rewrite Hex.
Qed.

(** X7: [create_chunks] always returns, and the chunk list of two result
    lists put end to end is the chunk list of the first followed by the
    chunk list of the second. *)
Theorem create_chunks_app (writable : string -> bool)
    (results1 results2 : list fetch_result) (chunk_size overlap : Z)
    (output_file : string) :
  exists chunks1 chunks2 written,
    create_chunks writable results1 chunk_size overlap output_file
      = Some (chunks1, written) /\
    create_chunks writable results2 chunk_size overlap output_file
      = Some (chunks2, written) /\
    create_chunks writable (results1 ++ results2) chunk_size overlap output_file
      = Some (chunks1 ++ chunks2, written).
Proof.
  rewrite !create_chunks_spec. do 3 eexists.
  split; [reflexivity|]. split; [reflexivity|]. by rewrite flat_map_app.
Qed.

(** X8: a URL is the [url] of some chunk exactly when some result with that
    URL is a success whose markdown is more than white space; so every such
    page has a chunk, and failed, empty and blank pages have none. *)
Theorem create_chunks_urls (writable : string -> bool)
    (results : list fetch_result) (chunk_size overlap : Z)
    (output_file : string) :
  exists chunks written,
    create_chunks writable results chunk_size overlap output_file
      = Some (chunks, written) /\
    forall u, In u (map chunk_url chunks) <->
      exists result, In result results /\ result_url result = u /\
                     has_markdown result = true /\
                     blank (str (markdown_of result)) = false.
Proof.
  rewrite create_chunks_spec. do 2 eexists. split; [reflexivity|].
  intros u. rewrite in_map_iff. split.
  - intros (c & Hu & Hin). apply in_flat_map in Hin as (r & Hr & Hc).
    destruct (eligible r) eqn:He.
    + destruct (page_chunks_eligible chunk_size overlap r He) as (cc & _ & _ & Hpc).
      rewrite Hpc in Hc. apply in_map_iff in Hc as (x & <- & _).
      exists r. unfold eligible in He. apply andb_true_iff in He as [H1 H2].
      apply negb_true_iff in H2. simpl in Hu. auto.
    + rewrite page_chunks_not_eligible in Hc by assumption. destruct Hc.
  - intros (r & Hr & Hu & Hmd & Hb).
    assert (He : eligible r = true) by (unfold eligible; by rewrite Hmd, Hb).
    destruct (page_chunks_eligible chunk_size overlap r He) as (cc & _ & Hne & Hpc).
    destruct cc as [|x cc]; [done|].
    exists (chunk_of (result_url r) x). split; [exact Hu|].
    apply in_flat_map. exists r. split; [exact Hr|]. rewrite Hpc. by left.
Qed.

(** X9: with a chunk size of at least 1, every record of the chunk list has
    a [chunk_length] that is the length of its [content], between 1 and
    [chunk_size + chunk_size // 2], and its [content] is a piece of the
    markdown of a successful result that has the record's [url]. *)
Theorem create_chunks_records (writable : string -> bool)
    (results : list fetch_result) (chunk_size overlap : Z)
    (output_file : string) :
  1 <= chunk_size ->
  exists chunks written,
    create_chunks writable results chunk_size overlap output_file
      = Some (chunks, written) /\
    Forall (fun c =>
      chunk_length c = len (chunk_content c) /\
      1 <= chunk_length c <= chunk_size + chunk_size / 2 /\
      exists result p,
        In result results /\ has_markdown result = true /\
        chunk_url c = result_url result /\
        occurs_at (chunk_content c) (str (markdown_of result)) p) chunks.
Proof.
  intros Hc. rewrite create_chunks_spec. do 2 eexists. split; [reflexivity|].
  by apply chunk_records_spec.
Qed.

Lemma create_chunks_records_mixed :
  exists chunks written,
    create_chunks (fun _ => true) mixed_results 10 3 "chunks.json"
      = Some (chunks, written) /\
    Forall (fun c =>
      chunk_length c = len (chunk_content c) /\
      1 <= chunk_length c <= 10 + 10 / 2 /\
      exists result p,
        In result mixed_results /\ has_markdown result = true /\
        chunk_url c = result_url result /\
        occurs_at (chunk_content c) (str (markdown_of result)) p) chunks.
Proof.
  apply (create_chunks_records (fun _ => true) mixed_results 10 3 "chunks.json").
  lia.
Defined.

(** The chunk list of the mixed results: the failure and the blank page
    have no chunk. *)
Example create_chunks_mixed :
  create_chunks (fun _ => true) mixed_results 20 5 "chunks.json" =
  Some ([mk_chunk (str "Install the tool. ") docs_a 18;
         mk_chunk (str "ool. Then run it.") docs_a 17;
         mk_chunk (str "n it.") docs_a 5; mk_chunk (str " it.") docs_a 4;
         mk_chunk (str "it.") docs_a 3; mk_chunk (str "t.") docs_a 2;
         mk_chunk (str ".") docs_a 1], true).
Proof. reflexivity. Qed.

(** X10: for a configuration with [0 <= overlap < chunk_size] and
    [overlap < chunk_size - chunk_size // 2 + 2] (the defaults 1000 and 200
    are one), the chunk list is made of one run of records per successful
    page with more than white space, in the order of the results; the
    records of a run carry the page's URL, and their contents, each but the
    first without its first [overlap] characters, put end to end are the
    page's markdown. *)
Theorem create_chunks_pages_reassemble (writable : string -> bool)
    (results : list fetch_result) (chunk_size overlap : Z)
    (output_file : string) :
  0 <= overlap -> overlap < chunk_size ->
  overlap < chunk_size - chunk_size / 2 + 2 ->
  exists runs written,
    create_chunks writable results chunk_size overlap output_file
      = Some (concat runs, written) /\
    Forall2 (fun result run =>
               Forall (fun c => chunk_url c = result_url result) run /\
               reassemble overlap (map chunk_content run)
               = str (markdown_of result))
      (List.filter
         (fun r => has_markdown r && negb (blank (str (markdown_of r))))
         results)
      runs.
Proof.
  intros H0 H1 H2. rewrite create_chunks_spec.
  exists (map (page_chunks chunk_size overlap) (List.filter eligible results)).
  eexists. split; [by rewrite flat_map_eligible|].
  change (fun r => has_markdown r && negb (blank (str (markdown_of r))))
    with eligible.
  assert (Hel : Forall (fun r => eligible r = true) (List.filter eligible results)).
  { apply List.Forall_forall. intros r Hr. by apply filter_In in Hr as [_ ?]. }
  induction Hel as [|r rs He _ IH]; [constructor|].
  simpl. constructor; [|exact IH].
  destruct (page_chunks_eligible chunk_size overlap r He) as (cc & Hcc & _ & Hpc).
  rewrite Hpc. split.
  - apply Forall_map. apply List.Forall_forall. reflexivity.
  - rewrite map_map. simpl. rewrite map_id.
    destruct (split_text_reassemble (str (markdown_of r)) chunk_size overlap
                H0 H1 H2) as (cc' & Hcc' & Hre).
    rewrite Hcc in Hcc'. by injection Hcc' as <-.
Qed.

Lemma create_chunks_pages_reassemble_defaults :
  exists runs written,
    create_chunks (fun _ => true) mixed_results default_chunk_size
      default_chunk_overlap "chunks.json" = Some (concat runs, written) /\
    Forall2 (fun result run =>
               Forall (fun c => chunk_url c = result_url result) run /\
               reassemble default_chunk_overlap (map chunk_content run)
               = str (markdown_of result))
      (List.filter
         (fun r => has_markdown r && negb (blank (str (markdown_of r))))
         mixed_results)
      runs.
Proof.
  apply (create_chunks_pages_reassemble (fun _ => true) mixed_results
           default_chunk_size default_chunk_overlap "chunks.json");
    reflexivity || (unfold default_chunk_overlap; lia).
Defined.



End BuilderExtras.

(** ** Properties of [_fetch_links], [clean_url] and [generate] *)

Module PipelineExtras.
Import PyStr Chunker ChunkSpec Fetch Builder Frontier Links Pipeline.
Import BuilderTerms Samples.
Import FetchFacts BuilderFacts.
Local Open Scope Z_scope.



(** The page script drops the empty and the [javascript:] links. *)
Example fetch_links_filter :
  fetch_links (Some ["javascript:void(0)"; ""; docs_a; about; docs_a]%string)
  = [docs_a; about; docs_a] /\ fetch_links None = [].
Proof. split; reflexivity. Qed.

Lemma replace_char_length old new s :
  String.length (replace_char old new s) = String.length s.
Proof. induction s as [|c s IH]; simpl; [reflexivity | by rewrite IH]. Qed.

Lemma replace_char_gone old new s :
  old <> new -> ~ In old (list_ascii_of_string (replace_char old new s)).
Proof.
  intros Hne. induction s as [|c s IH]; simpl; [tauto|].
  intros [Heq | Hin]; [|tauto].
  destruct (Ascii.eqb_spec c old); congruence.
Qed.

Lemma replace_char_absent old new s :
  ~ In old (list_ascii_of_string s) -> replace_char old new s = s.
Proof.
  induction s as [|c s IH]; simpl; [reflexivity|]. intros Hnot.
  destruct (Ascii.eqb_spec c old) as [->|_]; [tauto|].
  f_equal. apply IH. tauto.
Qed.

(** X13: when [urlparse] accepts the URL, [clean_url] returns a name as long
    as the URL's network location and without any dot, and the network
    location itself when that has no dot. *)
Theorem clean_url_has_no_dot (urlparse_netloc : string -> option string)
    (url netloc : string) :
  urlparse_netloc url = Some netloc ->
  exists name,
    clean_url urlparse_netloc url = Some name /\
    String.length name = String.length netloc /\
    ~ In "."%char (list_ascii_of_string name) /\
    (~ In "."%char (list_ascii_of_string netloc) -> name = netloc).
Proof.
  intros Hparse. unfold clean_url. rewrite Hparse. eexists.
  split; [reflexivity|]. split; [apply replace_char_length|].
  split; [by apply replace_char_gone | apply replace_char_absent].
Qed.

Lemma clean_url_has_no_dot_example :
  exists name,
    clean_url (fun _ => Some "docs.python.org"%string) "https://docs.python.org/3/"
      = Some name /\
    String.length name = String.length "docs.python.org" /\
    ~ In "."%char (list_ascii_of_string name) /\
    (~ In "."%char (list_ascii_of_string "docs.python.org") ->
     name = "docs.python.org"%string).
Proof.
  apply (clean_url_has_no_dot (fun _ => Some "docs.python.org"%string)
           "https://docs.python.org/3/" "docs.python.org").
  reflexivity.
Defined.

Example clean_url_python :
  clean_url (fun _ => Some "docs.python.org"%string) "https://docs.python.org/3/"
  = Some "docs_python_org"%string.
Proof. reflexivity. Qed.

Section Generator.

Variable arun : string -> arun_result + string.
Variable cpu_count : Z.
Variable urlparse_netloc : string -> option string.
Variable writable : string -> bool.

Lemma crawl_some concurrency urls :
  1 <= concurrency ->
  exists pool,
    crawl arun cpu_count (Some concurrency) urls
    = Returned pool (map (crawl_process arun) urls).
Proof.
  intros Hc. unfold crawl. destruct urls as [|u urls]; [eauto|].
  unfold pool_processes.
  destruct (Z.ltb_spec (Z.min concurrency (Z.of_nat (length (u :: urls)))) 1);
    [simpl in *; lia | eauto].
Qed.

Lemma fetched_cons u urls :
  fetched arun (u :: urls) =
  match arun u with inl _ => u :: fetched arun urls | inr _ => fetched arun urls end.
Proof. unfold fetched. simpl. by destruct (arun u). Qed.

Lemma crawl_process_failed u e :
  arun u = inr e -> crawl_process arun u = Failed u e.
Proof. intros H. unfold crawl_process, crawl_async. by rewrite H. Qed.

Lemma filter_markdown_fetched urls :
  List.filter has_markdown (map (crawl_process arun) urls) =
  List.filter has_markdown (map (crawl_process arun) (fetched arun urls)).
Proof.
  induction urls as [|u urls IH]; [reflexivity|].
  rewrite fetched_cons. destruct (arun u) as [r|e] eqn:Hu.
  - simpl. destruct (has_markdown (crawl_process arun u)); by rewrite IH.
  - simpl. rewrite (crawl_process_failed u e Hu). simpl. exact IH.
Qed.

Lemma flat_map_fetched cs ov urls :
  flat_map (page_chunks cs ov) (map (crawl_process arun) urls) =
  flat_map (page_chunks cs ov) (map (crawl_process arun) (fetched arun urls)).
Proof.
  induction urls as [|u urls IH]; [reflexivity|].
  rewrite fetched_cons. destruct (arun u) as [r|e] eqn:Hu.
  - simpl. by rewrite IH.
  - simpl. rewrite (crawl_process_failed u e Hu). simpl. exact IH.
Qed.

(** X14: with a worker count of at least 1, a URL whose fetch raises changes
    nothing in what [generate] produces: the outcome, with the combined
    document, the chunk list and the files written, is the one of the URL
    list without the URLs that fail. *)
Theorem generate_ignores_failed_fetches (output_dir : string)
    (concurrency : Z) (doc_url : string) (doc_urls : list string) :
  1 <= concurrency ->
  generate arun cpu_count urlparse_netloc writable output_dir concurrency
    doc_url doc_urls =
  generate arun cpu_count urlparse_netloc writable output_dir concurrency
    doc_url (fetched arun doc_urls).
Proof.
  intros Hc. unfold generate.
  destruct (crawl_some concurrency doc_urls Hc) as [pool ->].
  destruct (crawl_some concurrency (fetched arun doc_urls) Hc) as [pool' ->].
  destruct (clean_url urlparse_netloc doc_url) as [doc_name|]; [|reflexivity].
  rewrite !create_combined_document_spec, !create_chunks_spec.
  rewrite !document_spec.
  by rewrite <- filter_markdown_fetched, <- flat_map_fetched.
Qed.

(** What [generate] returns when the pool can be made and the seed parses. *)
Lemma generate_outcome_spec (output_dir : string) (concurrency : Z)
    (doc_url netloc : string) (doc_urls : list string) :
  1 <= concurrency -> urlparse_netloc doc_url = Some netloc ->
  exists g,
    generate arun cpu_count urlparse_netloc writable output_dir concurrency
      doc_url doc_urls = Generated g /\
    knowledge_base_path g =
      path_join output_dir (replace_char "." "_" netloc ++ "_docs.txt") /\
    Forall (fun c =>
              In (chunk_url c) doc_urls /\
              (exists page, arun (chunk_url c) = inl page) /\
              1 <= chunk_length c <= 1500 /\
              chunk_length c = len (chunk_content c))
      (chunks g).
Proof.
  intros Hc Hparse. unfold generate.
  destruct (crawl_some concurrency doc_urls Hc) as [pool ->].
  unfold clean_url. rewrite Hparse.
  rewrite create_combined_document_spec, create_chunks_spec.
  eexists. split; [reflexivity|]. split; [reflexivity|]. simpl.
  pose proof (chunk_records_spec (map (crawl_process arun) doc_urls)
                default_chunk_size default_chunk_overlap ltac:(done)) as Hrec.
  eapply Forall_impl; [exact Hrec|]. simpl.
  intros c (Hlen & Hsize & r & p & Hin & Hmd & Hurl & _).
  apply in_map_iff in Hin as (u & <- & Hu).
  rewrite crawl_process_url in Hurl. rewrite Hurl.
  split; [exact Hu|]. split; [|split; [exact Hsize | exact Hlen]].
  unfold crawl_process, crawl_async in Hmd.
  destruct (arun u) as [page|e]; [eauto | discriminate].
Qed.

(** X15: with a worker count of at least 1 and a seed URL [urlparse]
    accepts, [generate] returns whatever the fetches did. It returns the
    path of the [_docs.txt] file, named after the seed's network location
    with its dots replaced, inside the output directory; and every chunk
    record carries a URL of the list whose fetch did not raise, and a
    content of 1 to 1500 characters. *)
Theorem generate_returns (output_dir : string) (concurrency : Z)
    (doc_url netloc : string) (doc_urls : list string) :
  1 <= concurrency -> urlparse_netloc doc_url = Some netloc ->
  exists g,
    generate arun cpu_count urlparse_netloc writable output_dir concurrency
      doc_url doc_urls = Generated g /\
    knowledge_base_path g =
      path_join output_dir (replace_char "." "_" netloc ++ "_docs.txt") /\
    Forall (fun c =>
              In (chunk_url c) doc_urls /\
              (exists page, arun (chunk_url c) = inl page) /\
              1 <= chunk_length c <= 1500 /\
              chunk_length c = len (chunk_content c))
      (chunks g).
Proof.
  intros Hc Hparse. by apply generate_outcome_spec.
Qed.


End Generator.

Lemma generate_returns_three_urls :
  exists g,
    generate second_raises 4 (fun _ => Some "x.com"%string) (fun _ => true)
      "./docs_content" 3 "https://x.com/docs" three_urls = Generated g /\
    knowledge_base_path g =
      path_join "./docs_content" (replace_char "." "_" "x.com" ++ "_docs.txt") /\
    Forall (fun c =>
              In (chunk_url c) three_urls /\
              (exists page, second_raises (chunk_url c) = inl page) /\
              1 <= chunk_length c <= 1500 /\
              chunk_length c = len (chunk_content c))
      (chunks g).
Proof.
  apply (generate_returns second_raises 4 (fun _ => Some "x.com"%string)
           (fun _ => true) "./docs_content" 3 "https://x.com/docs" "x.com"
           three_urls); [lia | reflexivity].
Defined.

Lemma generate_ignores_failed_fetches_three_urls :
  generate second_raises 4 (fun _ => Some "x.com"%string) (fun _ => true)
    "./docs_content" 3 "https://x.com/docs" three_urls =
  generate second_raises 4 (fun _ => Some "x.com"%string) (fun _ => true)
    "./docs_content" 3 "https://x.com/docs" (fetched second_raises three_urls).
Proof.
  apply (generate_ignores_failed_fetches second_raises 4
           (fun _ => Some "x.com"%string) (fun _ => true) "./docs_content" 3
           "https://x.com/docs" three_urls).
  lia.
Defined.


(** What [generate] leaves for the three URLs of which the second fails. *)
Example generate_three_urls :
  generate second_raises 4 (fun _ => Some "x.com"%string) (fun _ => true)
    "./docs_content" 3 "https://x.com/docs" three_urls =
  Generated
    (mk_generated "./docs_content/x_com_docs.txt"
       (section_prefix ++ "https://x.com/docs/a" ++ nl ++ nl ++ "# Title"
        ++ section_separator
        ++ section_prefix ++ "https://x.com/docs/c" ++ nl ++ nl ++ "# Title")
       [mk_chunk (str "# Title") "https://x.com/docs/a" 7;
        mk_chunk (str "# Title") "https://x.com/docs/c" 7]
       [("./docs_content/x_com_docs.txt",
         Text (section_prefix ++ "https://x.com/docs/a" ++ nl ++ nl ++ "# Title"
               ++ section_separator
               ++ section_prefix ++ "https://x.com/docs/c" ++ nl ++ nl ++ "# Title"));
        ("./docs_content/x_com_chunks.json",
         Json [mk_chunk (str "# Title") "https://x.com/docs/a" 7;
               mk_chunk (str "# Title") "https://x.com/docs/c" 7])]).
Proof. reflexivity. Qed.

End PipelineExtras.

(** ** Further properties of the frontier *)

Module FrontierExtras.
Import PyStr Chunker Fetch Builder Frontier Pipeline.
Import FrontierTerms BuilderTerms Samples.
Import FrontierFacts FrontierAccounts PipelineExtras.
Local Open Scope Z_scope.
#[local] Set Warnings "-clear-no-such-hyp".

Lemma two_busy_run :
  run 3 absolute_netloc join_unused home 2 two_busy_trace two_busy_state.
Proof.
  apply (replay_run 3 absolute_netloc join_unused home 2 (firstn 4 cyclic_site)
           [EvPut home 1] (init home 2)); [apply run_init|].
  vm_compute. reflexivity.
Qed.

Lemma one_link_run :
  run 1 absolute_netloc join_unused home 1 one_link_trace one_link_final.
Proof.
  apply (replay_run 1 absolute_netloc join_unused home 1 one_link
           [EvPut home 1] (init home 1)); [apply run_init|].
  vm_compute. reflexivity.
Qed.

Lemma cyclic_run :
  run 3 absolute_netloc join_unused home 2 cyclic_trace cyclic_final.
Proof.
  apply (replay_run 3 absolute_netloc join_unused home 2 cyclic_site
           [EvPut home 1] (init home 2)); [apply run_init|].
  vm_compute. reflexivity.
Qed.

Lemma cyclic_final_is_finished : finished cyclic_final.
Proof. split; [reflexivity | repeat constructor]. Qed.

Lemma lower_char_d x : lower_char x = "d"%char <-> x = "d"%char \/ x = "D"%char.
Proof.
  destruct x as [[] [] [] [] [] [] [] []]; vm_compute;
    (split; [intros H; first [discriminate H | auto]
            | intros [H|H]; first [discriminate H | reflexivity]]).
Qed.

Lemma lower_char_o x : lower_char x = "o"%char <-> x = "o"%char \/ x = "O"%char.
Proof.
  destruct x as [[] [] [] [] [] [] [] []]; vm_compute;
    (split; [intros H; first [discriminate H | auto]
            | intros [H|H]; first [discriminate H | reflexivity]]).
Qed.

Lemma lower_char_c x : lower_char x = "c"%char <-> x = "c"%char \/ x = "C"%char.
Proof.
  destruct x as [[] [] [] [] [] [] [] []]; vm_compute;
    (split; [intros H; first [discriminate H | auto]
            | intros [H|H]; first [discriminate H | reflexivity]]).
Qed.

Lemma prefix_cons a s1 b s2 :
  String.prefix (String a s1) (String b s2) =
  if ascii_dec a b then String.prefix s1 s2 else false.
Proof. reflexivity. Qed.

Lemma prefix_empty a s1 : String.prefix (String a s1) "" = false.
Proof. reflexivity. Qed.

Lemma prefix_of_empty s : String.prefix "" s = true.
Proof. by destruct s. Qed.

Lemma lower_cons x s : lower (String x s) = String (lower_char x) (lower s).
Proof. reflexivity. Qed.

(** The 'doc' test at the head of a link. *)
Lemma doc_prefix s :
  String.prefix "doc" (lower s) = true <->
  exists a b c rest,
    s = String a (String b (String c rest)) /\
    (a = "d" \/ a = "D")%char /\ (b = "o" \/ b = "O")%char /\
    (c = "c" \/ c = "C")%char.
Proof.
  split.
  - destruct s as [|a [|b [|c rest]]];
      rewrite ?lower_cons; change (lower "") with ""%string;
      rewrite ?prefix_cons, ?prefix_empty.
    + discriminate.
    + destruct (ascii_dec "d" (lower_char a)); discriminate.
    + destruct (ascii_dec "d" (lower_char a)); [|discriminate].
      destruct (ascii_dec "o" (lower_char b)); discriminate.
    + destruct (ascii_dec "d" (lower_char a)) as [Ha|]; [|discriminate].
      destruct (ascii_dec "o" (lower_char b)) as [Hb|]; [|discriminate].
      destruct (ascii_dec "c" (lower_char c)) as [Hc|]; [|discriminate].
      intros _. exists a, b, c, rest. split; [reflexivity|].
      split; [by apply lower_char_d|]. split; [by apply lower_char_o|].
      by apply lower_char_c.
  - intros (a & b & c & rest & -> & Ha & Hb & Hc).
    apply lower_char_d in Ha. apply lower_char_o in Hb. apply lower_char_c in Hc.
    rewrite !lower_cons, Ha, Hb, Hc, !prefix_cons.
    repeat (destruct (ascii_dec _ _); [|done]). apply prefix_of_empty.
Qed.

(** X26: the documentation filter accepts a link exactly when the letters
    d, o, c, each in either case, stand next to each other somewhere in
    it. *)
Theorem is_doc_iff (link : string) :
  is_doc link = true <->
  exists before a b c rest,
    link = (before ++ String a (String b (String c rest)))%string /\
    (a = "d" \/ a = "D")%char /\ (b = "o" \/ b = "O")%char /\
    (c = "c" \/ c = "C")%char.
Proof.
  unfold is_doc. induction link as [|x link IH].
  - split; [discriminate|].
    intros ([|y before] & a & b & c & rest & Heq & _); discriminate Heq.
  - assert (Hc : contains "doc" (lower (String x link)) =
                 String.prefix "doc" (lower (String x link))
                 || contains "doc" (lower link)) by reflexivity.
    rewrite Hc.
    rewrite orb_true_iff, doc_prefix, IH. split.
    + intros [(a & b & c & rest & Heq & H) | (before & a & b & c & rest & -> & H)].
      * exists ""%string, a, b, c, rest. by split.
      * exists (String x before), a, b, c, rest. by split.
    + intros ([|y before] & a & b & c & rest & Heq & H).
      * left. exists a, b, c, rest. by split.
      * right. injection Heq as -> ->. exists before, a, b, c, rest. by split.
Qed.

Section Extraction.

Variable max_depth : Z.
Variable urlparse_netloc : string -> option string.
Variable urljoin : string -> string -> option string.

(** X17: when the extraction is over, the visited set is the queued set:
    every URL that was queued has been handed to a worker. *)
Theorem finished_all_queued_visited (base_url : string) (concurrency : nat)
    (tr : list event) (st : state) :
  run max_depth urlparse_netloc urljoin base_url concurrency tr st ->
  finished st ->
  visited_urls st = queued_urls st.
Proof.
  intros Hrun [Hq _].
  pose proof (inv_visited _ _ _ (run_inv _ _ _ _ _ _ _ Hrun)) as Hsub.
  pose proof (acc_waiting _ _ _ _ _ (run_accounts _ _ _ _ _ _ _ Hrun)) as Hwait.
  apply set_eq. intros u. split; [apply Hsub|].
  intros Hu. destruct (Hwait u Hu) as [?|Hin]; [done|].
  rewrite Hq in Hin. by apply elem_of_nil in Hin.
Qed.

(** X18: with [max_depth <= 1] nothing but the seed is ever queued or
    visited: the pages the seed links to are tested for 'doc' and not
    crawled. *)
Theorem depth_1_crawls_only_the_seed (base_url : string) (concurrency : nat)
    (tr : list event) (st : state) :
  max_depth <= 1 ->
  run max_depth urlparse_netloc urljoin base_url concurrency tr st ->
  queued_urls st = {[base_url]} /\ puts tr = [base_url] /\
  visited_urls st ⊆ {[base_url]}.
Proof.
  intros Hmax Hrun.
  destruct (acc_shallow _ _ _ _ _ (run_accounts _ _ _ _ _ _ _ Hrun) Hmax)
    as [Hq Hp].
  split; [exact Hq|]. split; [exact Hp|]. rewrite <- Hq.
  apply (inv_visited _ _ _ (run_inv _ _ _ _ _ _ _ Hrun)).
Qed.

(** X19: no step of a worker removes a URL from the documentation URLs, the
    visited set or the queued set. *)
Theorem frontier_sets_only_grow (a : action) (st st' : state)
    (evs : list event) :
  perform max_depth urlparse_netloc urljoin a st = Some (st', evs) ->
  doc_urls st ⊆ doc_urls st' /\ visited_urls st ⊆ visited_urls st' /\
  queued_urls st ⊆ queued_urls st'.
Proof. apply perform_grows. Qed.

(** X20: at every point of an extraction there are [concurrency] workers,
    the pages they are fetching are pairwise distinct, and each of them is in
    the visited set: no page is fetched by two workers at once. *)
Theorem workers_fetch_distinct_pages (base_url : string) (concurrency : nat)
    (tr : list event) (st : state) :
  run max_depth urlparse_netloc urljoin base_url concurrency tr st ->
  length (workers st) = concurrency /\
  NoDup (busy_urls (workers st)) /\
  forall u, u ∈ busy_urls (workers st) -> u ∈ visited_urls st.
Proof.
  intros Hrun. pose proof (run_accounts _ _ _ _ _ _ _ Hrun) as Hacc.
  split; [exact (acc_pool _ _ _ _ _ Hacc)|].
  split; [exact (acc_busy _ _ _ _ _ Hacc)|].
  intros u Hu. apply busy_urls_elem in Hu as [d Hin].
  by apply (inv_workers _ _ _ (run_inv _ _ _ _ _ _ _ Hrun) u d).
Qed.

(** X21: at every point of an extraction every job that was put is either
    still in the queue or was taken by a worker (jobs taken plus queue
    length is jobs put), the visited set is the set of URLs of the jobs
    taken, and every queued URL is visited or waits in the queue. *)
Theorem queue_accounting (base_url : string) (concurrency : nat)
    (tr : list event) (st : state) :
  run max_depth urlparse_netloc urljoin base_url concurrency tr st ->
  (length (gets tr) + length (queue st) = length (puts tr))%nat /\
  (forall u, u ∈ visited_urls st <-> u ∈ gets tr) /\
  (forall u, u ∈ queued_urls st ->
             u ∈ visited_urls st \/ u ∈ queue_urls (queue st)).
Proof.
  intros Hrun. pose proof (run_accounts _ _ _ _ _ _ _ Hrun) as Hacc.
  split; [exact (acc_jobs _ _ _ _ _ Hacc)|].
  split; [exact (acc_visited _ _ _ _ _ Hacc) | exact (acc_waiting _ _ _ _ _ Hacc)].
Qed.

(** X22: with [concurrency = 0] no worker exists, the seed stays in the
    queue, and the extraction is never over: [queue.join()] does not
    return. *)
Theorem no_worker_never_finishes (base_url : string)
    (tr : list event) (st : state) :
  run max_depth urlparse_netloc urljoin base_url 0 tr st ->
  st = init base_url 0 /\ tr = [EvPut base_url 1] /\ ~ finished st.
Proof.
  intros Hrun.
  assert (Hst : st = init base_url 0 /\ tr = [EvPut base_url 1]).
  { induction Hrun as [|tr st a st' evs Hrun IH Hstep]; [done|].
    destruct IH as [-> ->]. exfalso.
    destruct a as [i | i links]; simpl in Hstep; discriminate Hstep. }
  destruct Hst as [-> ->]. split; [reflexivity|]. split; [reflexivity|].
  intros [Hq _]. discriminate Hq.
Qed.

Lemma idle_or_busy (ws : list (option (string * Z))) :
  Forall (fun w => w = None) ws \/
  exists i u d, ws !! i = Some (Some (u, d)).
Proof.
  induction ws as [|[[u d]|] ws IH].
  - left. constructor.
  - right. by exists 0%nat, u, d.
  - destruct IH as [Hall | (i & u & d & Hi)].
    + left. by constructor.
    + right. by exists (S i), u, d.
Qed.

(** X23: with at least one worker, an extraction that is not over can
    always go on: a worker that waits for a page can get its links, or an
    idle worker can take the job at the head of the queue. *)
Theorem extraction_never_deadlocks (base_url : string) (concurrency : nat)
    (tr : list event) (st : state) :
  (1 <= concurrency)%nat ->
  run max_depth urlparse_netloc urljoin base_url concurrency tr st ->
  ~ finished st ->
  exists a st' evs,
    perform max_depth urlparse_netloc urljoin a st = Some (st', evs).
Proof.
  intros Hc Hrun Hnot.
  pose proof (acc_pool _ _ _ _ _ (run_accounts _ _ _ _ _ _ _ Hrun)) as Hpool.
  destruct (idle_or_busy (workers st)) as [Hidle | (i & u & d & Hi)].
  - destruct (queue st) as [|[url depth] q] eqn:Hq.
    { exfalso. apply Hnot. by split. }
    destruct (workers st) as [|w ws] eqn:Hws; [simpl in Hpool; lia|].
    apply Forall_cons in Hidle as [-> _].
    exists (Get 0). simpl. unfold worker_get. rewrite Hws, Hq. simpl.
    destruct (bool_decide (url ∈ visited_urls st)); eauto.
  - exists (Resume i []). simpl. unfold worker_resume. rewrite Hi. eauto.
Qed.

(** X24: a schedule of an extraction has at most two steps for every URL of
    the site: when every URL the extraction queues belongs to the finite set
    [site], the schedule is at most [2 * size site] steps long, cycles and
    repeated links notwithstanding. *)
Theorem schedule_length_bound (base_url : string) (concurrency : nat)
    (acts : list action) (tr : list event) (st : state) (site : gset string) :
  replay max_depth urlparse_netloc urljoin acts [EvPut base_url 1]
    (init base_url concurrency) = Some (tr, st) ->
  (forall u, u ∈ puts tr -> u ∈ site) ->
  (length acts <= 2 * size site)%nat.
Proof.
  intros Hre Hsite.
  pose proof (replay_measure _ _ _ _ _ _ _ _ Hre) as Hm.
  simpl in Hm. rewrite busy_urls_idle in Hm. simpl in Hm.
  assert (Hrun : run max_depth urlparse_netloc urljoin base_url concurrency tr st)
    by (eapply replay_run; [apply run_init | exact Hre]).
  pose proof (acc_jobs _ _ _ _ _ (run_accounts _ _ _ _ _ _ _ Hrun)) as Hjobs.
  pose proof (inv_puts_nodup _ _ _ (run_inv _ _ _ _ _ _ _ Hrun)) as Hnd.
  assert (Hsize : (length (puts tr) <= size site)%nat).
  { rewrite <- (size_list_to_set (C := gset string)) by exact Hnd.
    apply subseteq_size. intros u Hu. apply elem_of_list_to_set in Hu. auto. }
  lia.
Qed.

(** X25: the chunk list [generate] builds from the result of a finished
    extraction only has records of documentation links: the URL of every
    record contains 'doc' in lowercase and was a link of a crawled page. *)
Theorem generated_chunks_are_doc_links
    (arun : string -> arun_result + string) (cpu_count : Z)
    (writable : string -> bool) (output_dir : string)
    (base_url netloc : string) (concurrency : nat)
    (tr : list event) (st : state) (doc_url_list : list string) :
  (1 <= concurrency)%nat ->
  urlparse_netloc base_url = Some netloc ->
  run max_depth urlparse_netloc urljoin base_url concurrency tr st ->
  finished st ->
  (forall u, In u doc_url_list <-> u ∈ doc_urls st) ->
  exists g,
    generate arun cpu_count urlparse_netloc writable output_dir
      (Z.of_nat concurrency) base_url doc_url_list = Generated g /\
    Forall (fun c => is_doc (chunk_url c) = true /\
                     saw_link tr (chunk_url c))
      (chunks g).
Proof.
  intros Hc Hparse Hrun _ Hlist.
  destruct (generate_outcome_spec arun cpu_count urlparse_netloc writable
              output_dir (Z.of_nat concurrency) base_url netloc doc_url_list
              ltac:(lia) Hparse) as (g & Hg & _ & Hall).
  exists g. split; [exact Hg|].
  eapply Forall_impl; [exact Hall|]. simpl. intros c (Hin & _).
  apply (inv_docs _ _ _ (run_inv _ _ _ _ _ _ _ Hrun)). by apply Hlist.
Qed.

End Extraction.

Lemma finished_all_queued_visited_cyclic_site :
  visited_urls cyclic_final = queued_urls cyclic_final.
Proof.
  apply (finished_all_queued_visited 3 absolute_netloc join_unused home 2
           cyclic_trace cyclic_final cyclic_run cyclic_final_is_finished).
Defined.

Lemma depth_1_crawls_only_the_seed_one_link :
  queued_urls one_link_final = {[home]} /\ puts one_link_trace = [home] /\
  visited_urls one_link_final ⊆ {[home]}.
Proof.
  apply (depth_1_crawls_only_the_seed 1 absolute_netloc join_unused home 1
           one_link_trace one_link_final); [lia | exact one_link_run].
Defined.

Lemma frontier_sets_only_grow_first_step :
  doc_urls (init home 1) ⊆ doc_urls (mk_state ∅ {[home]} {[home]} [] [Some (home, 1)]) /\
  visited_urls (init home 1)
    ⊆ visited_urls (mk_state ∅ {[home]} {[home]} [] [Some (home, 1)]) /\
  queued_urls (init home 1)
    ⊆ queued_urls (mk_state ∅ {[home]} {[home]} [] [Some (home, 1)]).
Proof.
  apply (frontier_sets_only_grow 3 absolute_netloc join_unused (Get 0)
           (init home 1) (mk_state ∅ {[home]} {[home]} [] [Some (home, 1)])
           [EvGet home 1]).
  vm_compute. reflexivity.
Defined.

Lemma workers_fetch_distinct_pages_two_busy :
  length (workers two_busy_state) = 2%nat /\
  NoDup (busy_urls (workers two_busy_state)) /\
  forall u, u ∈ busy_urls (workers two_busy_state) ->
            u ∈ visited_urls two_busy_state.
Proof.
  apply (workers_fetch_distinct_pages 3 absolute_netloc join_unused home 2
           two_busy_trace two_busy_state two_busy_run).
Defined.

Lemma queue_accounting_two_busy :
  (length (gets two_busy_trace) + length (queue two_busy_state)
   = length (puts two_busy_trace))%nat /\
  (forall u, u ∈ visited_urls two_busy_state <-> u ∈ gets two_busy_trace) /\
  (forall u, u ∈ queued_urls two_busy_state ->
             u ∈ visited_urls two_busy_state \/
             u ∈ queue_urls (queue two_busy_state)).
Proof.
  apply (queue_accounting 3 absolute_netloc join_unused home 2
           two_busy_trace two_busy_state two_busy_run).
Defined.

Lemma no_worker_never_finishes_home :
  init home 0 = init home 0 /\ [EvPut home 1] = [EvPut home 1] /\
  ~ finished (init home 0).
Proof.
  apply (no_worker_never_finishes 3 absolute_netloc join_unused home
           [EvPut home 1] (init home 0)).
  apply run_init.
Defined.

Lemma extraction_never_deadlocks_at_start :
  exists a st' evs,
    perform 3 absolute_netloc join_unused a (init home 1) = Some (st', evs).
Proof.
  apply (extraction_never_deadlocks 3 absolute_netloc join_unused home 1
           [EvPut home 1] (init home 1)).
  - lia.
  - apply run_init.
  - intros [Hq _]. discriminate Hq.
Defined.

Lemma schedule_length_bound_cyclic_site :
  (length cyclic_site <= 2 * size ({[home; docs_a; about; docs_b]} : gset string))%nat.
Proof.
  apply (schedule_length_bound 3 absolute_netloc join_unused home 2
           cyclic_site cyclic_trace cyclic_final).
  - vm_compute. reflexivity.
  - intros u Hu. change (puts cyclic_trace) with [home; docs_a; about; docs_b] in Hu.
    set_solver.
Defined.

Lemma generated_chunks_are_doc_links_cyclic_site :
  exists g,
    generate second_raises 4 absolute_netloc (fun _ => true) "./docs_content"
      (Z.of_nat 2) home [docs_a; docs_b] = Generated g /\
    Forall (fun c => is_doc (chunk_url c) = true /\
                     saw_link cyclic_trace (chunk_url c))
      (chunks g).
Proof.
  apply (generated_chunks_are_doc_links 3 absolute_netloc join_unused
           second_raises 4 (fun _ => true) "./docs_content" home "x.com" 2
           cyclic_trace cyclic_final [docs_a; docs_b]).
  - lia.
  - reflexivity.
  - exact cyclic_run.
  - exact cyclic_final_is_finished.
  - intros u. simpl. set_solver.
Defined.

End FrontierExtras.

